(** * arsenal.maths.rvs: truncated, empirical and discrete distributions

    A shallow embedding of [arsenal/maths/rvs.py] and the properties its
    specification states about it.

    Numbers.  numpy's float64 values are modelled as exact rationals [Q]:
    rounding, NaN and overflow are not modelled, and a float division by
    zero (which numpy answers with inf or nan) is Q's [x / 0 == 0].  The
    one infinite value the code produces on purpose, [np.inf] in
    [Empirical.conditional_mean], is modelled with the type [ereal].

    Objects.  numpy arrays are mutable and passed by reference; they live
    in a [heap] of arrays indexed by locations, so that the in-place
    [sort] of [Empirical.__init__] and its copy are visible.

    Library code.  numpy's [cumsum], [searchsorted], [sort], [quantile],
    [minimum], [max] and [random.uniform] are not part of this repository;
    they are modelled in [Module np] after numpy's documented behaviour
    ([searchsorted] after the binary search numpy implements). *)

From Stdlib Require Import QArith Qround Qabs Qminmax List Lia Lqa.
From Stdlib Require Import Sorted Permutation PeanoNat.
From stdpp Require Import gmap.
Import ListNotations.

(** ** Python values *)

(** Exceptions the modelled code can raise. *)
Inductive exn : Type :=
| AssertionError
| IndexError
| ValueError.

Inductive result (A : Type) : Type :=
| Ok (v : A)
| Raise (e : exn).
Arguments Ok {A} v.
Arguments Raise {A} e.

(** Sequencing: the first exception raised ends the computation. *)
#[export] Instance result_bind : MBind result := fun A B k r =>
  match r with
  | Ok v => k v
  | Raise e => Raise e
  end.

(** Elementwise evaluation of a function that may raise. *)
Fixpoint each {A B : Type} (f : A -> result B) (l : list A) : result (list B) :=
  match l with
  | [] => Ok []
  | a :: l' => v ← f a; vs ← each f l'; Ok (v :: vs)
  end.

(** [assert c] *)
Definition assert (c : bool) : result unit :=
  if c then Ok tt else Raise AssertionError.

(** A float or [np.inf]. *)
Inductive ereal : Type :=
| Finite (q : Q)
| PosInf.

(** An argument that numpy broadcasts over: a scalar or a one-dimensional
    array.  Elementwise functions keep the shape. *)
Inductive nd (A : Type) : Type :=
| Scalar (v : A)
| Array (l : list A).
Arguments Scalar {A} v.
Arguments Array {A} l.

Definition nd_map {A B : Type} (f : A -> B) (v : nd A) : nd B :=
  match v with
  | Scalar a => Scalar (f a)
  | Array l => Array (map f l)
  end.

(** [np.all] of an elementwise test. *)
Definition nd_all {A : Type} (p : A -> bool) (v : nd A) : bool :=
  match v with
  | Scalar a => p a
  | Array l => forallb p l
  end.

Definition nd_Forall {A : Type} (P : A -> Prop) (v : nd A) : Prop :=
  match v with
  | Scalar a => P a
  | Array l => Forall P l
  end.

Definition Qlt_bool (x y : Q) : bool := negb (Qle_bool y x).

Definition Qnat (k : nat) : Q := inject_Z (Z.of_nat k).

(** Number of elements of [l] that pass the test [p]. *)
Fixpoint count (p : Q -> bool) (l : list Q) : nat :=
  match l with
  | [] => 0
  | a :: l' => (if p a then 1 else 0) + count p l'
  end.

(** ** The numpy functions the module calls *)

Module np.

(** [cumsum]: running sums, same length as the input. *)
Fixpoint cumsum_from (acc : Q) (w : list Q) : list Q :=
  match w with
  | [] => []
  | a :: w' => (acc + a)%Q :: cumsum_from (acc + a)%Q w'
  end.

Definition cumsum (w : list Q) : list Q := cumsum_from 0%Q w.

(** [ndarray.sort]: ascending; modelled by insertion. *)
Fixpoint insert (a : Q) (l : list Q) : list Q :=
  match l with
  | [] => [a]
  | b :: l' => if Qle_bool a b then a :: b :: l' else b :: insert a l'
  end.

Fixpoint sort (l : list Q) : list Q :=
  match l with
  | [] => []
  | a :: l' => insert a (sort l')
  end.

(** [searchsorted(a, v, side)].  side='left' finds [i] with
    [a[i-1] < v <= a[i]], side='right' with [a[i-1] <= v < a[i]]. *)
Inductive side : Type := left | right.

(** The binary search's test on [a[mid]]: continue in the upper half? *)
Definition above (s : side) (key a : Q) : bool :=
  match s with
  | left => Qlt_bool a key
  | right => Qle_bool a key
  end.

(** The loop
    [while (min_idx < max_idx) { mid = min_idx + ((max_idx - min_idx) >> 1);
       if (a[mid] < key) min_idx = mid + 1; else max_idx = mid; }]
    with [<=] in place of [<] for side='right'; [fuel] bounds the number
    of iterations. *)
Fixpoint binsearch (fuel : nat) (s : side) (a : list Q) (key : Q)
    (min_idx max_idx : nat) : nat :=
  match fuel with
  | O => min_idx
  | S fuel' =>
      if min_idx <? max_idx then
        let mid := min_idx + (max_idx - min_idx) / 2 in
        if above s key (nth mid a 0%Q)
        then binsearch fuel' s a key (mid + 1) max_idx
        else binsearch fuel' s a key min_idx mid
      else min_idx
  end.

Definition searchsorted (a : list Q) (v : Q) (s : side) : nat :=
  binsearch (length a) s a v 0 (length a).

(** [np.minimum] on scalars. *)
Definition minimum (x y : Q) : Q := Qmin x y.

(** [ndarray.max]; an empty array has no maximum. *)
Definition max (w : list Q) : option Q :=
  match w with
  | [] => None
  | a :: w' => Some (fold_left Qmax w' a)
  end.

(** [np.quantile(x, q, interpolation='lower')]: the order statistic at
    index [floor (q * (n - 1))] of the sorted data.  (What numpy does
    on an empty array depends on its version; here it is an
    [IndexError].) *)
Definition lower_index (n : nat) (q : Q) : nat :=
  Z.to_nat (Qfloor (q * (Qnat n - 1))%Q).

Definition quantile_lower (x : list Q) (q : Q) : result Q :=
  match nth_error (sort x) (lower_index (length x) q) with
  | Some v => Ok v
  | None => Raise IndexError
  end.

(** The global random generator: the stream of its future outputs in
    [0,1) and the number of outputs consumed so far. *)
Record RandomState : Type := { stream : nat -> Q; pos : nat }.

Definition random_sample (g : RandomState) : Q * RandomState :=
  (stream g (pos g), {| stream := stream g; pos := S (pos g) |}).

Fixpoint random_samples (k : nat) (g : RandomState) : list Q * RandomState :=
  match k with
  | O => ([], g)
  | S k' =>
      let '(r, g1) := random_sample g in
      let '(rs, g2) := random_samples k' g1 in
      (r :: rs, g2)
  end.

(** [uniform(low, high, size)]: a scalar for [size=None], else an array
    of [size] draws. *)
Definition uniform (low high : Q) (size : option nat) (g : RandomState)
    : nd Q * RandomState :=
  let scale r := (low + (high - low) * r)%Q in
  match size with
  | None => let '(r, g') := random_sample g in (Scalar (scale r), g')
  | Some k => let '(rs, g') := random_samples k g in (Array (map scale rs), g')
  end.

End np.

(** ** The heap of arrays *)

Definition loc : Type := positive.

(** Every numpy array is a heap cell holding its elements. *)
Abbreviation heap := (gmap loc (list Q)).

(** [np.array(x, copy=True)]: a new array with the elements of [x].  An
    argument that is not a one-dimensional array makes
    [[self.n] = x.shape] fail with a [ValueError]. *)
Definition array_copy (h : heap) (x : loc) : result (heap * loc) :=
  match h !! x with
  | Some data => let r := fresh (dom h) in Ok (<[r := data]> h, r)
  | None => Raise ValueError
  end.

(** [x.sort()]: sorts the array at [x] in place. *)
Definition array_sort (h : heap) (x : loc) : heap :=
  match h !! x with
  | Some data => <[x := np.sort data]> h
  | None => h
  end.

(** The elements of the array at [x]. *)
Definition elements_at (h : heap) (x : loc) : list Q := default [] (h !! x).

(** ** class Empirical *)

Module Empirical.

Record t : Type := { x : loc; n : nat }.

(** [__init__(self, x)]:
    [self.x = x = np.array(x, copy=True); [self.n] = x.shape; self.x.sort()]. *)
Definition __init__ (h : heap) (x0 : loc) : result (heap * t) :=
  '(h1, x1) ← array_copy h x0;
  let n1 := length (elements_at h1 x1) in
  let h2 := array_sort h1 x1 in
  Ok (h2, {| x := x1; n := n1 |}).

(** [__call__(self, z)]: [self.x.searchsorted(z, 'right') / self.n],
    at one element of [z] and broadcast over [z]. *)
Definition call1 (h : heap) (self : t) (zi : Q) : Q :=
  (Qnat (np.searchsorted (elements_at h (x self)) zi np.right) / Qnat (n self))%Q.

Definition __call__ (h : heap) (self : t) (z : nd Q) : nd Q :=
  nd_map (call1 h self) z.

Definition cdf := __call__.

(** [sf(self, z)]: [1 - self.cdf(z)]. *)
Definition sf (h : heap) (self : t) (z : nd Q) : nd Q :=
  nd_map (fun c => (1 - c)%Q) (cdf h self z).

(** [range(lo, hi)] *)
Definition range (lo hi : nat) : list nat := seq lo (hi - lo).

(** [conditional_mean(self, a, b)]: the loop over
    [range(searchsorted(a, 'right'), searchsorted(b, 'left'))]
    accumulating the sum [m] and the count [n]. *)
Definition conditional_mean (h : heap) (self : t) (a b : Q) : ereal :=
  let xs := elements_at h (x self) in
  let '(m, n) :=
    fold_left (fun '(m, n) i => ((m + nth i xs 0)%Q, (n + 1)%Q))
      (range (np.searchsorted xs a np.right) (np.searchsorted xs b np.left))
      (0%Q, 0%Q) in
  if Qlt_bool 0 n then Finite (m / n)%Q else PosInf.

(** [quantile(self, q)]:
    [assert np.all((0 <= q) & (q <= 1))] then
    [np.quantile(self.x, q, interpolation='lower')], elementwise. *)
Definition quantile1 (h : heap) (self : t) (q : Q) : result Q :=
  np.quantile_lower (elements_at h (x self)) q.

Definition quantile (h : heap) (self : t) (q : nd Q) : result (nd Q) :=
  _ ← assert (nd_all (fun qi => Qle_bool 0 qi && Qle_bool qi 1) q);
  match q with
  | Scalar qi => v ← quantile1 h self qi; Ok (Scalar v)
  | Array qs => vs ← each (quantile1 h self) qs; Ok (Array vs)
  end.

Definition ppf := quantile.

End Empirical.

(** ** sample and log_sample *)

(** [c[-1]] *)
Definition last_item (c : list Q) : result Q :=
  match last c with
  | Some v => Ok v
  | None => Raise IndexError
  end.

(** [sample(w, size=None, u=None)] *)
Definition sample (w : list Q) (size : option nat) (u : option (nd Q))
    (g : np.RandomState) : result (nd nat * np.RandomState) :=
  let c := np.cumsum w in
  '(u1, g1) ←
    match u with
    | None =>
        _ ← assert (match size with None => true | Some _ => false end);
        Ok (np.uniform 0 1 size g)
    | Some u0 => Ok (u0, g)
    end;
  total ← last_item c;
  Ok (nd_map (fun ui => np.searchsorted c (ui * total)%Q np.left) u1, g1).

Section LogSample.

(** [numpy.exp], a parameter of the development. *)
Variable exp : Q -> Q.

(** [log_sample(w)]: [a = w - w.max(); exp(a, out=a); return sample(a)]. *)
Definition log_sample (w : list Q) (g : np.RandomState)
    : result (nd nat * np.RandomState) :=
  match np.max w with
  | None => Raise ValueError
  | Some m =>
      let a := map (fun wi => (wi - m)%Q) w in
      let a := map exp a in
      sample a None None g
  end.

End LogSample.

(** ** class TruncatedDistribution *)

(** What the wrapped distribution [d] must offer. *)
Record Distribution : Type :=
  { d_pdf : Q -> Q; d_cdf : Q -> Q; d_ppf : Q -> Q }.

Module TruncatedDistribution.

Record t : Type :=
  { d : Distribution; a : Q; b : Q; cdf_b : Q; cdf_a : Q; cdf_w : Q }.

(** The attributes [__init__] sets:
    [self.d = d; self.a = a; self.b = b; self.cdf_b = d.cdf(b);
     self.cdf_a = d.cdf(a); self.cdf_w = self.cdf_b - self.cdf_a]. *)
Definition attributes (d0 : Distribution) (a0 b0 : Q) : t :=
  let cb := d_cdf d0 b0 in
  let ca := d_cdf d0 a0 in
  {| d := d0; a := a0; b := b0; cdf_b := cb; cdf_a := ca;
     cdf_w := (cb - ca)%Q |}.

(** [__init__(self, d, a, b)]: [assert np.all(a <= b)], then the
    attributes. *)
Definition __init__ (d0 : Distribution) (a0 b0 : Q) : result t :=
  _ ← assert (Qle_bool a0 b0);
  Ok (attributes d0 a0 b0).

(** A comparison used as a number: [True] is 1 and [False] is 0. *)
Definition ind (c : bool) : Q := if c then 1%Q else 0%Q.

(** [pdf(self, x)]:
    [(self.a <= x) * (x <= self.b) * self.d.pdf(x) / self.cdf_w] *)
Definition pdf (self : t) (x : Q) : Q :=
  (ind (Qle_bool (a self) x) * ind (Qle_bool x (b self)) * d_pdf (d self) x
     / cdf_w self)%Q.

(** [ppf(self, u)]: [self.d.ppf(self.cdf_a + u * self.cdf_w)] *)
Definition ppf (self : t) (u : Q) : Q :=
  d_ppf (d self) (cdf_a self + u * cdf_w self)%Q.

(** [cdf(self, x)]:
    [np.minimum(1, (self.a <= x) * (self.d.cdf(x) - self.cdf_a) / self.cdf_w)] *)
Definition cdf (self : t) (x : Q) : Q :=
  np.minimum 1
    (ind (Qle_bool (a self) x) * (d_cdf (d self) x - cdf_a self) / cdf_w self)%Q.

(** [sf(self, x)]: [1 - self.cdf(x)] *)
Definition sf (self : t) (x : Q) : Q := (1 - cdf self x)%Q.

(** [rvs(self, size=None)]: [u = uniform(0, 1, size=size); return self.ppf(u)] *)
Definition rvs (self : t) (size : option nat) (g : np.RandomState)
    : nd Q * np.RandomState :=
  let '(u, g') := np.uniform 0 1 size g in (nd_map (ppf self) u, g').

End TruncatedDistribution.

(** ** Notions of the specification *)

(** The sum of the weights. *)
Definition total_mass (w : list Q) : Q := fold_right Qplus 0%Q w.

(** [(number of stored samples <= z) / n] *)
Definition fraction_le (data : list Q) (z : Q) : Q :=
  (Qnat (count (fun v => Qle_bool v z) data) / Qnat (length data))%Q.

(** [v] is the smallest stored value where the function [F] reaches [p]. *)
Definition least_sample_reaching (F : Q -> Q) (data : list Q) (p v : Q) : Prop :=
  In v data /\ (p <= F v)%Q /\
  forall v', In v' data -> (p <= F v')%Q -> (v <= v')%Q.

(** What [quantile] returns at one [q] in range: the order statistic of
    index [lower_index n q]; it is the least sample whose cdf reaches
    [(index + 1) / n], the minimum at [q = 0] and the maximum at [q = 1]. *)
Definition lower_quantile_of (F : Q -> Q) (data : list Q) (q v : Q) : Prop :=
  nth_error (np.sort data) (np.lower_index (length data) q) = Some v /\
  least_sample_reaching F data
    (Qnat (np.lower_index (length data) q + 1) / Qnat (length data))%Q v /\
  (q == 0 -> forall v', In v' data -> v <= v')%Q /\
  (q == 1 -> forall v', In v' data -> v' <= v)%Q.

(** The mean of the stored values [v] with [a <= v < b], or [+infinity]
    when there is none. *)
Definition half_open_mean (data : list Q) (a b : Q) : ereal :=
  match List.filter (fun v => Qle_bool a v && Qlt_bool v b) data with
  | [] => PosInf
  | vs => Finite (total_mass vs / Qnat (length vs))%Q
  end.

(** [i] is the smallest index with [c[i] >= v]. *)
Definition least_index_ge (c : list Q) (v : Q) (i : nat) : Prop :=
  i < length c /\ (v <= nth i c 0)%Q /\ forall j, j < i -> (nth j c 0 < v)%Q.

(** Two broadcast values of the same shape, related elementwise. *)
Definition nd_Forall2 {A B : Type} (R : A -> B -> Prop) (v : nd A) (v' : nd B) : Prop :=
  match v, v' with
  | Scalar a, Scalar b => R a b
  | Array l, Array l' => Forall2 R l l'
  | _, _ => False
  end.

(** ** Sample data *)

Definition heap_of (data : list Q) : heap := {[ 1%positive := data ]}.

Definition half_stream : np.RandomState :=
  {| np.stream := fun _ => (1 # 2)%Q; np.pos := 0 |}.

(** An exponential that computes on rationals: 2 to the integer part. *)
Definition exp2 (x : Q) : Q := Qpower 2 (Qfloor x).

(** The uniform distribution on [0, 1]. *)
Definition uniform01 : Distribution :=
  {| d_pdf := fun x => if Qle_bool 0 x && Qle_bool x 1 then 1%Q else 0%Q;
     d_cdf := fun x => if Qle_bool x 0 then 0%Q
                       else if Qle_bool 1 x then 1%Q else x;
     d_ppf := fun u => u |}.

(** ** The rest of the module *)

(** [p.sum()] and the built-in [sum]: the entries added from the left. *)
Definition array_sum (p : list Q) : Q := fold_left Qplus p 0%Q.

(** [is_distribution(p)]: [(p >= 0).all() and abs(1 - p.sum()) < 1e-10] *)
Definition is_distribution (p : list Q) : bool :=
  forallb (fun pi => Qle_bool 0 pi) p
  && Qlt_bool (Qabs (1 - array_sum p)) (1 # 10000000000).

(** Exceptions of the remaining functions, besides the ones above. *)
Inductive pyexn : Type :=
| Exn (e : exn)
| TypeError
| ZeroDivisionError
| KeyError.

Inductive outcome (A : Type) : Type :=
| Return (v : A)
| Throw (e : pyexn).
Arguments Return {A} v.
Arguments Throw {A} e.

#[export] Instance outcome_bind : MBind outcome := fun A B k r =>
  match r with
  | Return v => k v
  | Throw e => Throw e
  end.

Definition lift {A : Type} (r : result A) : outcome A :=
  match r with
  | Ok v => Return v
  | Raise e => Throw (Exn e)
  end.

Section Anneal.

(** [p ** invT], elementwise; a parameter of the development. *)
Variable power : Q -> Q -> Q.

(** [anneal(p, *, invT=None, T=None)]:
    [if T is not None: assert invT is None; invT = 1./T]
    [p = p ** invT; p /= p.sum(); return p].
    A power with exponent [None] is a [TypeError]. *)
Definition anneal (p : list Q) (invT T : option Q) : outcome (list Q) :=
  invT1 ← match T with
           | Some t =>
               _ ← lift (assert (match invT with None => true | Some _ => false end));
               if Qeq_bool t 0 then Throw ZeroDivisionError else Return (Some (1 / t)%Q)
           | None => Return invT
           end;
  match invT1 with
  | None => Throw TypeError
  | Some e =>
      let p1 := map (fun pi => power pi e) p in
      let s := array_sum p1 in
      Return (map (fun pi => (pi / s)%Q) p1)
  end.

End Anneal.

(** A component of a mixture: an object with [rvs()] and [pdf(x)]. *)
Record Component : Type :=
  { c_rvs : np.RandomState -> Q * np.RandomState; c_pdf : Q -> Q }.

Module Mixture.

Record t : Type := { pdfs : list Component; w : list Q }.

(** [__init__(self, w, pdfs)]: [w = array(w); assert is_distribution(w)] *)
Definition __init__ (w0 : list Q) (pdfs0 : list Component) : result t :=
  _ ← assert (is_distribution w0);
  Ok {| pdfs := pdfs0; w := w0 |}.

(** [[self.pdfs[j].rvs() for j in i]] *)
Fixpoint draw_each (cs : list Component) (js : list nat) (g : np.RandomState)
    : outcome (list Q * np.RandomState) :=
  match js with
  | [] => Return ([], g)
  | j :: js' =>
      match nth_error cs j with
      | None => Throw (Exn IndexError)
      | Some c =>
          let '(v, g1) := c_rvs c g in
          '(vs, g2) ← draw_each cs js' g1;
          Return (v :: vs, g2)
      end
  end.

(** [rvs(self, size=1)]: [i = sample(self.w, size=size)], then one draw
    from the component of each index in [i]; a scalar [i] cannot be
    iterated over. *)
Definition rvs (self : t) (size : option nat) (g : np.RandomState)
    : outcome (list Q * np.RandomState) :=
  '(i, g1) ← lift (sample (w self) size None g);
  match i with
  | Array js => draw_each (pdfs self) js g1
  | Scalar _ => Throw TypeError
  end.

(** [pdf(self, x)]: [sum([p.pdf(x) * w for w, p in zip(self.w, self.pdfs)])] *)
Definition pdf (self : t) (x : Q) : Q :=
  array_sum (map (fun '(wi, p) => (c_pdf p x * wi)%Q) (combine (w self) (pdfs self))).

End Mixture.

(** ** class _BruteForce *)

(** A Python [dict] with float values: the keys in the order of their
    first insertion, each with its latest value. *)
Section Dict.

Context {K : Type} `{EqDecision K}.

(** [d[k] = v] *)
Fixpoint dict_set (d : list (K * Q)) (k : K) (v : Q) : list (K * Q) :=
  match d with
  | [] => [(k, v)]
  | (k', v') :: d' =>
      if decide (k' = k) then (k, v) :: d' else (k', v') :: dict_set d' k v
  end.

(** [d[k]], when the key is there. *)
Fixpoint dict_get (d : list (K * Q)) (k : K) : option Q :=
  match d with
  | [] => None
  | (k', v') :: d' => if decide (k' = k) then Some v' else dict_get d' k
  end.

End Dict.

Module BruteForce.
Section Tabular.

Context {K : Type} `{EqDecision K}.

(** What a subclass supplies: [self.domain()] and [self.score(x)]; and
    [np.log], a parameter of the development. *)
Variable domain : list K.
Variable score : K -> Q.
Variable log : Q -> Q.

(** [self.Z = np.sum([self.score(x) for x in self.domain()])] *)
Definition Z : Q := array_sum (map score domain).

(** [self.P = {x: self.score(x) / self.Z for x in self.domain()}] *)
Definition P : list (K * Q) :=
  fold_left (fun d x => dict_set d x (score x / Z)%Q) domain [].

(** [entropy(self)]:
    [-np.sum([p * np.log(p) for p in self.P.values() if p != 0])] *)
Definition entropy : Q :=
  (- array_sum (map (fun p => p * log p)
                  (List.filter (fun p => negb (Qeq_bool p 0)) (map snd P))))%Q.

(** [logp(self, x)]: [np.log(self.P[x])] *)
Definition logp (x : K) : outcome Q :=
  match dict_get P x with
  | Some p => Return (log p)
  | None => Throw KeyError
  end.

End Tabular.
End BruteForce.

(** ** More notions used in the statements *)

(** The mean of the stored values [v] with [a < v < b], or [+infinity]
    when there is none. *)
Definition open_mean (data : list Q) (a b : Q) : ereal :=
  match List.filter (fun v => Qlt_bool a v && Qlt_bool v b) data with
  | [] => PosInf
  | vs => Finite (total_mass vs / Qnat (length vs))%Q
  end.

(** Equality of results up to equality of rationals. *)
Definition ereal_eq (r r' : ereal) : Prop :=
  match r, r' with
  | Finite q, Finite q' => (q == q')%Q
  | PosInf, PosInf => True
  | _, _ => False
  end.

(** Three outcomes, scored by their number. *)
Definition small_domain : list nat := [1; 2; 3].

(** A component that always draws 0 and has density 1 on [0, 1]. *)
Definition unit_component : Component :=
  {| c_rvs := fun g => (0%Q, g); c_pdf := d_pdf uniform01 |}.

(** * Properties *)

(** ** Comparisons *)

Lemma Qlt_bool_iff (x y : Q) : Qlt_bool x y = true <-> (x < y)%Q.
Proof.
  unfold Qlt_bool. rewrite negb_true_iff.
  split; intros H.
  - apply Qnot_le_lt. intros Hle. apply Qle_bool_iff in Hle. congruence.
  - destruct (Qle_bool y x) eqn:E; [|reflexivity].
    apply Qle_bool_iff in E. exfalso. exact (Qlt_not_le _ _ H E).
Qed.

Lemma Qle_bool_false_iff (x y : Q) : Qle_bool x y = false <-> (y < x)%Q.
Proof.
  rewrite <- Qlt_bool_iff. unfold Qlt_bool. now rewrite negb_true_iff.
Qed.

(** Case analysis on a comparison, with its meaning in the context. *)
Ltac case_Qle x y :=
  let E := fresh "E" in
  destruct (Qle_bool x y) eqn:E;
  [apply Qle_bool_iff in E | apply Qle_bool_false_iff in E].

Lemma above_left_iff (key a : Q) : np.above np.left key a = true <-> (a < key)%Q.
Proof. apply Qlt_bool_iff. Qed.

Lemma above_right_iff (key a : Q) : np.above np.right key a = true <-> (a <= key)%Q.
Proof. apply Qle_bool_iff. Qed.

(** The search's test is downward closed: it passes on everything below
    an element that passes. *)
Lemma above_downward (s : np.side) (key a a' : Q) :
  (a <= a')%Q -> np.above s key a' = true -> np.above s key a = true.
Proof.
  destruct s; simpl; intros Hle H.
  - apply Qlt_bool_iff. apply Qlt_bool_iff in H. lra.
  - apply Qle_bool_iff. apply Qle_bool_iff in H. lra.
Qed.

(** ** Counting *)

Lemma count_le_length (p : Q -> bool) (l : list Q) : count p l <= length l.
Proof. induction l as [|a l IH]; simpl; [lia|]. destruct (p a); lia. Qed.

Lemma count_Permutation (p : Q -> bool) (l l' : list Q) :
  Permutation l l' -> count p l = count p l'.
Proof. induction 1; simpl; lia. Qed.

(** A list split by [p] into a passing prefix of length [r] and a failing
    rest has exactly [r] passing elements. *)
Lemma count_split (p : Q -> bool) (l : list Q) (r : nat) :
  r <= length l ->
  (forall i, i < r -> p (nth i l 0%Q) = true) ->
  (forall i, r <= i < length l -> p (nth i l 0%Q) = false) ->
  count p l = r.
Proof.
  revert r. induction l as [|a l IH]; intros r Hr Hlo Hhi; simpl in *.
  - lia.
  - destruct r as [|r].
    + rewrite (Hhi 0) by lia.
      rewrite (IH 0); [reflexivity | lia | intros; lia |].
      intros i Hi. apply (Hhi (S i)). lia.
    + rewrite (Hlo 0) by lia.
      rewrite (IH r); [reflexivity | lia | |].
      * intros i Hi. apply (Hlo (S i)). lia.
      * intros i Hi. apply (Hhi (S i)). lia.
Qed.

(** ** Sorting *)

Lemma insert_Permutation (a : Q) (l : list Q) : Permutation (a :: l) (np.insert a l).
Proof.
  induction l as [|b l IH]; simpl; [reflexivity|].
  destruct (Qle_bool a b); [reflexivity|].
  rewrite perm_swap. now apply perm_skip.
Qed.

Lemma sort_Permutation (l : list Q) : Permutation l (np.sort l).
Proof.
  induction l as [|a l IH]; simpl; [constructor|].
  rewrite <- insert_Permutation. now apply perm_skip.
Qed.

Lemma sort_length (l : list Q) : length (np.sort l) = length l.
Proof. symmetry. apply Permutation_length, sort_Permutation. Qed.

Lemma insert_sorted (a : Q) (l : list Q) :
  StronglySorted Qle l -> StronglySorted Qle (np.insert a l).
Proof.
  induction 1 as [|b l Hs IH Hb]; simpl.
  - repeat constructor.
  - destruct (Qle_bool a b) eqn:E.
    + apply Qle_bool_iff in E. constructor; [now constructor|].
      constructor; [exact E|].
      eapply List.Forall_impl; [|exact Hb]. intros c Hc. simpl in Hc. lra.
    + apply Qle_bool_false_iff in E. constructor; [exact IH|].
      eapply Permutation_Forall; [apply insert_Permutation|].
      constructor; [lra | exact Hb].
Qed.

Lemma sort_sorted (l : list Q) : StronglySorted Qle (np.sort l).
Proof.
  induction l as [|a l IH]; simpl; [constructor | now apply insert_sorted].
Qed.

Lemma sorted_nth (l : list Q) (i j : nat) :
  StronglySorted Qle l -> i <= j < length l -> (nth i l 0 <= nth j l 0)%Q.
Proof.
  intros Hs. revert i j. induction Hs as [|a l Hs IH Ha]; intros i j Hij; simpl in *.
  - lia.
  - destruct i as [|i], j as [|j]; try lia.
    + lra.
    + rewrite List.Forall_forall in Ha. apply Ha. apply nth_In. lia.
    + apply IH. lia.
Qed.

(** ** Binary search *)

Section BinarySearch.

Variables (s : np.side) (a : list Q) (key : Q).

Local Abbreviation P i := (np.above s key (nth i a 0%Q)).

(** Whatever the array holds, the search answers inside its bounds. *)
Lemma binsearch_bounds (fuel lo hi : nat) :
  lo <= hi -> lo <= np.binsearch fuel s a key lo hi <= hi.
Proof.
  revert lo hi.
  induction fuel as [|fuel IH]; intros lo hi Hle; cbn [np.binsearch]; [lia|].
  destruct (Nat.ltb_spec lo hi) as [Hlt|Hge]; [|lia].
  assert (Hmid : (hi - lo) / 2 < hi - lo) by (apply Nat.div_lt; lia).
  destruct (np.above _ _ _).
  - specialize (IH (lo + (hi - lo) / 2 + 1) hi). lia.
  - specialize (IH lo (lo + (hi - lo) / 2)). lia.
Qed.

(** The loop ends within as many steps as the interval is long: any two
    such amounts of fuel give the same answer, on any array. *)
Lemma binsearch_enough_fuel (fuel fuel' lo hi : nat) :
  hi - lo <= fuel -> hi - lo <= fuel' ->
  np.binsearch fuel s a key lo hi = np.binsearch fuel' s a key lo hi.
Proof.
  revert fuel' lo hi.
  induction fuel as [|fuel IH]; intros fuel' lo hi Hf Hf'.
  - destruct fuel' as [|fuel']; cbn [np.binsearch]; [reflexivity|].
    destruct (Nat.ltb_spec lo hi); [lia | reflexivity].
  - destruct fuel' as [|fuel']; cbn [np.binsearch].
    + destruct (Nat.ltb_spec lo hi); [lia | reflexivity].
    + destruct (Nat.ltb_spec lo hi) as [Hlt|Hge]; [|reflexivity].
      assert (Hmid : (hi - lo) / 2 < hi - lo) by (apply Nat.div_lt; lia).
      destruct (np.above _ _ _); apply IH; lia.
Qed.

(** On an array that the test splits into a passing prefix and a failing
    rest, the search, given as many steps as the interval is long, stops
    at the split. *)
Lemma binsearch_split (fuel lo hi : nat) :
  (forall i j, i <= j < length a -> P j = true -> P i = true) ->
  hi - lo <= fuel -> lo <= hi <= length a ->
  (forall i, i < lo -> P i = true) ->
  (forall i, hi <= i < length a -> P i = false) ->
  (forall i, i < np.binsearch fuel s a key lo hi -> P i = true) /\
  (forall i, np.binsearch fuel s a key lo hi <= i < length a -> P i = false).
Proof.
  intros Hdown. revert lo hi.
  induction fuel as [|fuel IH]; intros lo hi Hfuel Hle Hlo Hhi; cbn [np.binsearch].
  - split; [exact Hlo|]. intros i Hi. apply Hhi. lia.
  - destruct (Nat.ltb_spec lo hi) as [Hlt|Hge].
    + assert (Hmid : (hi - lo) / 2 < hi - lo) by (apply Nat.div_lt; lia).
      set (mid := lo + (hi - lo) / 2) in *.
      destruct (np.above s key (nth mid a 0%Q)) eqn:E.
      * apply IH; [lia | lia | | exact Hhi].
        intros i Hi. apply (Hdown i mid); [lia | exact E].
      * apply IH; [lia | lia | exact Hlo |].
        intros i Hi. destruct (P i) eqn:Ei; [|reflexivity].
        assert (P mid = true) by (apply (Hdown mid i); [lia | exact Ei]).
        congruence.
    + split; [exact Hlo|]. intros i Hi. apply Hhi. lia.
Qed.

End BinarySearch.

(** ** searchsorted on a sorted array *)

Lemma searchsorted_le_length (a : list Q) (v : Q) (s : np.side) :
  np.searchsorted a v s <= length a.
Proof. unfold np.searchsorted. apply binsearch_bounds. lia. Qed.

Lemma searchsorted_split (a : list Q) (v : Q) (s : np.side) :
  StronglySorted Qle a ->
  (forall i, i < np.searchsorted a v s -> np.above s v (nth i a 0%Q) = true) /\
  (forall i, np.searchsorted a v s <= i < length a ->
     np.above s v (nth i a 0%Q) = false).
Proof.
  intros Hs. unfold np.searchsorted. apply binsearch_split; try lia.
  intros i j Hij. apply above_downward. now apply sorted_nth.
Qed.

(** The insertion index is the number of elements below the key (strictly
    below for side='left', below or equal for side='right'). *)
Lemma searchsorted_count (a : list Q) (v : Q) (s : np.side) :
  StronglySorted Qle a -> np.searchsorted a v s = count (np.above s v) a.
Proof.
  intros Hs. destruct (searchsorted_split a v s Hs) as [Hlo Hhi].
  symmetry. apply count_split; [apply searchsorted_le_length | exact Hlo | exact Hhi].
Qed.

(** ** Empirical: construction *)

Lemma elements_at_insert (h : heap) (r : loc) (data : list Q) :
  elements_at (<[r := data]> h) r = data.
Proof. unfold elements_at. now rewrite lookup_insert_eq. Qed.

(** Construction from an array succeeds; the object holds a new array with
    the sorted elements, and no array that existed before is changed. *)
Lemma init_ok (h : heap) (x0 : loc) (data : list Q) :
  h !! x0 = Some data ->
  exists h' e,
    Empirical.__init__ h x0 = Ok (h', e) /\
    h !! Empirical.x e = None /\
    h' = <[Empirical.x e := np.sort data]> h /\
    Empirical.n e = length data.
Proof.
  intros Hx. unfold Empirical.__init__, array_copy. rewrite Hx. cbn.
  eexists _, _. split; [reflexivity|]. cbn.
  split; [|split].
  - apply not_elem_of_dom, is_fresh.
  - unfold array_sort. rewrite lookup_insert_eq. apply insert_insert_eq.
  - now rewrite elements_at_insert.
Qed.

Lemma init_elements (h h' : heap) (x0 : loc) (data : list Q) (e : Empirical.t) :
  h !! x0 = Some data -> Empirical.__init__ h x0 = Ok (h', e) ->
  elements_at h' (Empirical.x e) = np.sort data /\ Empirical.n e = length data.
Proof.
  intros Hx Hinit. destruct (init_ok h x0 data Hx) as (h1 & e1 & Hi & _ & Hh & Hn).
  rewrite Hi in Hinit. injection Hinit as <- <-.
  split; [|exact Hn]. rewrite Hh. apply elements_at_insert.
Qed.

(** C9.  Constructing [Empirical(x)] leaves the caller's array [x] as it
    was, same elements in the same order: the constructor copies [x] into
    a new array, different from [x], and sorts that copy in place; no array
    other than the copy changes. *)
Theorem init_leaves_input_unchanged (h : heap) (x0 : loc) (data : list Q) :
  h !! x0 = Some data ->
  exists h' e,
    Empirical.__init__ h x0 = Ok (h', e) /\
    h' !! x0 = Some data /\
    Empirical.x e <> x0 /\
    h' !! Empirical.x e = Some (np.sort data) /\
    forall r, r <> Empirical.x e -> h' !! r = h !! r.
Proof.
  intros Hx. destruct (init_ok h x0 data Hx) as (h' & e & Hi & Hnew & Hh & _).
  exists h', e.
  assert (Hne : Empirical.x e <> x0)
    by (intros Heq; rewrite Heq in Hnew; congruence).
  split; [exact Hi|]. subst h'. split; [|split; [exact Hne|split]].
  - rewrite lookup_insert_ne by exact Hne. exact Hx.
  - apply lookup_insert_eq.
  - intros r Hr. apply lookup_insert_ne. congruence.
Qed.

Lemma init_leaves_input_unchanged_witness :
  exists h' e,
    Empirical.__init__ (heap_of [15; 5; 10]%Q) 1%positive = Ok (h', e) /\
    h' !! 1%positive = Some [15; 5; 10]%Q /\
    Empirical.x e <> 1%positive /\
    h' !! Empirical.x e = Some (np.sort [15; 5; 10]%Q) /\
    forall r, r <> Empirical.x e -> h' !! r = heap_of [15; 5; 10]%Q !! r.
Proof.
  apply (init_leaves_input_unchanged (heap_of [15; 5; 10]%Q) 1%positive).
  reflexivity.
Defined.

(** ** Empirical: cdf *)

Lemma nd_map_ext {A B : Type} (f g : A -> B) (v : nd A) :
  (forall a, f a = g a) -> nd_map f v = nd_map g v.
Proof.
  intros H. destruct v as [a|l]; simpl; [now rewrite H|].
  f_equal. apply map_ext. exact H.
Qed.

Lemma nd_Forall_map {A B : Type} (P : B -> Prop) (f : A -> B) (v : nd A) :
  (forall a, P (f a)) -> nd_Forall P (nd_map f v).
Proof.
  intros H. destruct v as [a|l]; simpl; [apply H|].
  induction l; simpl; constructor; auto.
Qed.

(** On the constructed object, the numerator of the cdf is the number of
    samples [<= z]. *)
Lemma call1_fraction_le (h h' : heap) (x0 : loc) (data : list Q) (e : Empirical.t) (z : Q) :
  h !! x0 = Some data -> Empirical.__init__ h x0 = Ok (h', e) ->
  Empirical.call1 h' e z = fraction_le data z.
Proof.
  intros Hx Hi. destruct (init_elements h h' x0 data e Hx Hi) as [Hel Hn].
  unfold Empirical.call1, fraction_le. rewrite Hel, Hn.
  rewrite searchsorted_count by apply sort_sorted.
  now rewrite <- (count_Permutation _ _ _ (sort_Permutation data)).
Qed.

Lemma Qnat_ratio_bounds (k n : nat) :
  k <= n -> 0 < n -> (0 <= Qnat k / Qnat n <= 1)%Q.
Proof.
  intros Hk Hn. unfold Qnat.
  assert (Hn' : (0 < inject_Z (Z.of_nat n))%Q).
  { change 0%Q with (inject_Z 0). rewrite <- Zlt_Qlt. lia. }
  assert (Hk0 : (0 <= inject_Z (Z.of_nat k))%Q).
  { change 0%Q with (inject_Z 0). rewrite <- Zle_Qle. lia. }
  assert (Hkn : (inject_Z (Z.of_nat k) <= inject_Z (Z.of_nat n))%Q).
  { rewrite <- Zle_Qle. lia. }
  split.
  - apply Qle_shift_div_l; [exact Hn'|]. lra.
  - apply Qle_shift_div_r; [exact Hn'|]. lra.
Qed.

Lemma cdf_example_distinct (h : heap) (x0 : loc) :
  h !! x0 = Some [5; 10; 15]%Q ->
  exists h' e,
    Empirical.__init__ h x0 = Ok (h', e) /\
    nd_Forall2 Qeq (Empirical.cdf h' e (Array [5; 9; 13; 15; 100]%Q))
      (Array [1 / 3; 1 / 3; 2 / 3; 1; 1]%Q).
Proof.
  intros Hx. destruct (init_ok h x0 _ Hx) as (h' & e & Hi & _).
  exists h', e. split; [exact Hi|].
  unfold Empirical.cdf, Empirical.__call__. cbn [nd_map map nd_Forall2].
  rewrite !(call1_fraction_le h h' x0 _ e _ Hx Hi).
  repeat constructor; vm_compute; reflexivity.
Qed.

Lemma cdf_example_ties (h : heap) (x0 : loc) :
  h !! x0 = Some [5; 5; 15]%Q ->
  exists h' e,
    Empirical.__init__ h x0 = Ok (h', e) /\
    nd_Forall2 Qeq (Empirical.cdf h' e (Array [0; 5; 15]%Q))
      (Array [0; 2 / 3; 1]%Q).
Proof.
  intros Hx. destruct (init_ok h x0 _ Hx) as (h' & e & Hi & _).
  exists h', e. split; [exact Hi|].
  unfold Empirical.cdf, Empirical.__call__. cbn [nd_map map nd_Forall2].
  rewrite !(call1_fraction_le h h' x0 _ e _ Hx Hi).
  repeat constructor; vm_compute; reflexivity.
Qed.

(** C6.  For samples [data] of length [n] and every query [z], scalar or
    array, [Empirical.cdf(z)] is, per element, (number of samples [<= z])
    / [n], ties counted; for samples [5, 10, 15] the cdf of
    [5, 9, 13, 15, 100] is [1/3, 1/3, 2/3, 1, 1], and for samples
    [5, 5, 15] the cdf of [0, 5, 15] is [0, 2/3, 1]. *)
Theorem cdf_counts_samples_le (h : heap) (x0 : loc) (data : list Q) :
  h !! x0 = Some data ->
  exists h' e,
    Empirical.__init__ h x0 = Ok (h', e) /\
    (forall z, Empirical.cdf h' e z = nd_map (fraction_le data) z) /\
    (data = [5; 10; 15]%Q ->
     nd_Forall2 Qeq (Empirical.cdf h' e (Array [5; 9; 13; 15; 100]%Q))
       (Array [1 / 3; 1 / 3; 2 / 3; 1; 1]%Q)) /\
    (data = [5; 5; 15]%Q ->
     nd_Forall2 Qeq (Empirical.cdf h' e (Array [0; 5; 15]%Q))
       (Array [0; 2 / 3; 1]%Q)).
Proof.
  intros Hx. destruct (init_ok h x0 data Hx) as (h' & e & Hi & _).
  exists h', e. split; [exact Hi|]. split; [|split].
  - intros z. apply nd_map_ext. intros zi.
    exact (call1_fraction_le h h' x0 data e zi Hx Hi).
  - intros ->. destruct (cdf_example_distinct h x0 Hx) as (h1 & e1 & Hi1 & H1).
    rewrite Hi in Hi1. injection Hi1 as <- <-. exact H1.
  - intros ->. destruct (cdf_example_ties h x0 Hx) as (h1 & e1 & Hi1 & H1).
    rewrite Hi in Hi1. injection Hi1 as <- <-. exact H1.
Qed.

Lemma cdf_counts_samples_le_witness :
  exists h' e,
    Empirical.__init__ (heap_of [5; 10; 15]%Q) 1%positive = Ok (h', e) /\
    (forall z, Empirical.cdf h' e z = nd_map (fraction_le [5; 10; 15]%Q) z) /\
    ([5; 10; 15]%Q = [5; 10; 15]%Q ->
     nd_Forall2 Qeq (Empirical.cdf h' e (Array [5; 9; 13; 15; 100]%Q))
       (Array [1 / 3; 1 / 3; 2 / 3; 1; 1]%Q)) /\
    ([5; 10; 15]%Q = [5; 5; 15]%Q ->
     nd_Forall2 Qeq (Empirical.cdf h' e (Array [0; 5; 15]%Q))
       (Array [0; 2 / 3; 1]%Q)).
Proof.
  apply (cdf_counts_samples_le (heap_of [5; 10; 15]%Q) 1%positive).
  reflexivity.
Defined.

(** C10.  For a non-empty sample array and every query [z], scalar or
    array, below, inside or above the samples, every value of
    [Empirical.cdf(z)] lies in [0, 1]: the search index lies in [0, n]
    and is divided by [n >= 1]. *)
Theorem cdf_in_unit_interval (h : heap) (x0 : loc) (data : list Q) (z : nd Q) :
  h !! x0 = Some data -> data <> [] ->
  exists h' e,
    Empirical.__init__ h x0 = Ok (h', e) /\
    nd_Forall (fun c => (0 <= c <= 1)%Q) (Empirical.cdf h' e z).
Proof.
  intros Hx Hne. destruct (init_ok h x0 data Hx) as (h' & e & Hi & _).
  exists h', e. split; [exact Hi|].
  destruct (init_elements h h' x0 data e Hx Hi) as [Hel Hn].
  apply nd_Forall_map. intros zi. unfold Empirical.call1.
  apply Qnat_ratio_bounds.
  - rewrite Hn, <- (sort_length data), <- Hel. apply searchsorted_le_length.
  - rewrite Hn. destruct data; [congruence | simpl; lia].
Qed.

Lemma cdf_in_unit_interval_witness :
  exists h' e,
    Empirical.__init__ (heap_of [5; 5; 15]%Q) 1%positive = Ok (h', e) /\
    nd_Forall (fun c => (0 <= c <= 1)%Q)
      (Empirical.cdf h' e (Array [0; 5; 100]%Q)).
Proof.
  apply (cdf_in_unit_interval (heap_of [5; 5; 15]%Q) 1%positive [5; 5; 15]%Q).
  - reflexivity.
  - discriminate.
Defined.

(** ** Empirical: quantile *)

Lemma count_ge_prefix (p : Q -> bool) (l : list Q) (r : nat) :
  r <= length l ->
  (forall i, i < r -> p (nth i l 0%Q) = true) -> r <= count p l.
Proof.
  revert r. induction l as [|a l IH]; intros r Hr Hlo; simpl in *; [lia|].
  destruct r as [|r]; [lia|].
  rewrite (Hlo 0) by lia.
  specialize (IH r). cut (r <= count p l); [lia|].
  apply IH; [lia|]. intros i Hi. apply (Hlo (S i)). lia.
Qed.

Lemma count_le_suffix (p : Q -> bool) (l : list Q) (r : nat) :
  (forall i, r <= i < length l -> p (nth i l 0%Q) = false) -> count p l <= r.
Proof.
  revert r. induction l as [|a l IH]; intros r Hhi; simpl in *; [lia|].
  destruct r as [|r].
  - rewrite (Hhi 0) by lia.
    cut (count p l <= 0); [lia|]. apply IH. intros i Hi. apply (Hhi (S i)). lia.
  - cut (count p l <= r); [destruct (p a); lia|].
    apply IH. intros i Hi. apply (Hhi (S i)). lia.
Qed.

Lemma Qnat_pos (n : nat) : 0 < n -> (0 < Qnat n)%Q.
Proof.
  intros Hn. unfold Qnat. change 0%Q with (inject_Z 0). rewrite <- Zlt_Qlt. lia.
Qed.

Lemma Qnat_le (a b : nat) : a <= b <-> (Qnat a <= Qnat b)%Q.
Proof. unfold Qnat. rewrite <- Zle_Qle. lia. Qed.

Lemma Qnat_ratio_le (a b n : nat) :
  0 < n -> (Qnat a / Qnat n <= Qnat b / Qnat n)%Q <-> a <= b.
Proof.
  intros Hn. pose proof (Qnat_pos n Hn) as Hn'. rewrite Qnat_le.
  split; intros H.
  - apply (Qmult_le_r _ _ (/ Qnat n)); [now apply Qinv_lt_0_compat | exact H].
  - apply Qmult_le_r; [now apply Qinv_lt_0_compat | exact H].
Qed.

(** The index numpy's 'lower' method picks is inside the array, is 0 at
    [q = 0] and is the last index at [q = 1]. *)
Lemma lower_index_bounds (n : nat) (q : Q) :
  0 < n -> (0 <= q <= 1)%Q ->
  np.lower_index n q < n /\
  ((q == 0)%Q -> np.lower_index n q = 0) /\
  ((q == 1)%Q -> np.lower_index n q = n - 1).
Proof.
  intros Hn [Hq0 Hq1]. unfold np.lower_index.
  assert (Hm : (Qnat n - 1 == inject_Z (Z.of_nat n - 1))%Q).
  { unfold Qnat, Z.sub. rewrite inject_Z_plus, inject_Z_opp. reflexivity. }
  assert (Hm0 : (0 <= inject_Z (Z.of_nat n - 1))%Q).
  { change 0%Q with (inject_Z 0). rewrite <- Zle_Qle. lia. }
  split; [|split].
  - assert (Hle : (q * (Qnat n - 1) <= inject_Z (Z.of_nat n - 1))%Q).
    { rewrite Hm. nra. }
    apply Qfloor_resp_le in Hle. rewrite Qfloor_Z in Hle. lia.
  - intros H0. rewrite H0, Qmult_0_l. reflexivity.
  - intros H1. rewrite H1, Qmult_1_l, Hm, Qfloor_Z. lia.
Qed.

Lemma order_statistic_least (data : list Q) (i : nat) :
  i < length data ->
  least_sample_reaching (fraction_le data) data
    (Qnat (i + 1) / Qnat (length data))%Q (nth i (np.sort data) 0%Q).
Proof.
  intros Hi.
  pose proof (sort_sorted data) as Hs. pose proof (sort_Permutation data) as Hp.
  pose proof (sort_length data) as Hl.
  assert (Hn : 0 < length data) by lia.
  split; [|split].
  - eapply Permutation_in; [symmetry; exact Hp|]. apply nth_In. lia.
  - unfold fraction_le. apply Qnat_ratio_le; [exact Hn|].
    rewrite (count_Permutation _ _ _ Hp).
    apply count_ge_prefix; [lia|]. intros j Hj.
    apply Qle_bool_iff. apply sorted_nth; [exact Hs | lia].
  - intros v' Hin Hv'. unfold fraction_le in Hv'.
    apply Qnat_ratio_le in Hv'; [|exact Hn].
    rewrite (count_Permutation _ _ _ Hp) in Hv'.
    destruct (Qlt_le_dec v' (nth i (np.sort data) 0%Q)) as [Hlt|Hle]; [|exact Hle].
    exfalso.
    assert (Hc : count (fun v => Qle_bool v v') (np.sort data) <= i); [|lia].
    apply count_le_suffix. intros j Hj. apply Qle_bool_false_iff.
    eapply Qlt_le_trans; [exact Hlt|]. apply sorted_nth; [exact Hs | lia].
Qed.

Lemma sorted_nth_extremes (data : list Q) (v' : Q) :
  In v' data ->
  (nth 0 (np.sort data) 0 <= v' <= nth (length data - 1) (np.sort data) 0)%Q.
Proof.
  intros Hin.
  assert (Hin' : In v' (np.sort data))
    by (eapply Permutation_in; [apply sort_Permutation | exact Hin]).
  destruct (In_nth _ _ 0%Q Hin') as (j & Hj & <-).
  rewrite sort_length in Hj.
  split; apply sorted_nth; try apply sort_sorted; rewrite ?sort_length; lia.
Qed.

Lemma quantile1_ok (h h' : heap) (x0 : loc) (data : list Q) (e : Empirical.t) (q : Q) :
  h !! x0 = Some data -> Empirical.__init__ h x0 = Ok (h', e) ->
  data <> [] -> (0 <= q <= 1)%Q ->
  exists v, Empirical.quantile1 h' e q = Ok v /\
            lower_quantile_of (Empirical.call1 h' e) data q v.
Proof.
  intros Hx Hi Hne Hq.
  destruct (init_elements h h' x0 data e Hx Hi) as [Hel Hn].
  assert (Hlen : 0 < length data) by (destruct data; [congruence | simpl; lia]).
  destruct (lower_index_bounds (length data) q Hlen Hq) as (Hb & H0 & H1).
  set (i := np.lower_index (length data) q) in *.
  exists (nth i (np.sort data) 0%Q).
  assert (Hnth : nth_error (np.sort data) i = Some (nth i (np.sort data) 0%Q)).
  { apply nth_error_nth'. rewrite sort_length. exact Hb. }
  split.
  - unfold Empirical.quantile1, np.quantile_lower. rewrite Hel, sort_length.
    fold i. assert (Hss : np.sort (np.sort data) = np.sort data); [|now rewrite Hss, Hnth].
    clear -data.
    assert (Hfix : forall l, StronglySorted Qle l -> np.sort l = l).
    { induction 1 as [|a l Hs IH Ha]; simpl; [reflexivity|]. rewrite IH.
      destruct l as [|b l]; simpl; [reflexivity|].
      apply List.Forall_inv in Ha. apply Qle_bool_iff in Ha. now rewrite Ha. }
    apply Hfix, sort_sorted.
  - split; [exact Hnth|]. split; [|split].
    + destruct (order_statistic_least data i Hb) as (Ha & Hbb & Hc).
      split; [exact Ha|]. split.
      * now rewrite (call1_fraction_le h h' x0 data e _ Hx Hi).
      * intros v' Hin Hv'. apply Hc; [exact Hin|].
        now rewrite <- (call1_fraction_le h h' x0 data e _ Hx Hi).
    + intros Hq0 v' Hin. rewrite (H0 Hq0). now apply sorted_nth_extremes.
    + intros Hq1 v' Hin. rewrite (H1 Hq1). now apply sorted_nth_extremes.
Qed.

Lemma nd_all_Forall (p : Q -> bool) (P : Q -> Prop) (v : nd Q) :
  (forall a, P a -> p a = true) -> nd_Forall P v -> nd_all p v = true.
Proof.
  intros H. destruct v as [a|l]; simpl; [apply H|].
  induction 1 as [|a l Ha Hl IH]; simpl; [reflexivity|].
  now rewrite (H a Ha), IH.
Qed.




(** ** Empirical: conditional_mean *)

(** C4 (the code departs from it).  For samples [5, 10, 15],
    [conditional_mean(5, 15)] is 10, the mean of the values strictly
    between 5 and 15, where the mean of the values [5 <= v < 15] is 15/2;
    for the single sample [5], [conditional_mean(5, 6)] is [+infinity]
    although 5 lies in the interval. *)
Theorem conditional_mean_drops_left_endpoint :
  (exists h' e,
     Empirical.__init__ (heap_of [5; 10; 15]%Q) 1%positive = Ok (h', e) /\
     Empirical.conditional_mean h' e 5 15 = Finite 10 /\
     half_open_mean [5; 10; 15]%Q 5 15 = Finite (15 # 2)) /\
  (exists h' e,
     Empirical.__init__ (heap_of [5]%Q) 1%positive = Ok (h', e) /\
     Empirical.conditional_mean h' e 5 6 = PosInf /\
     half_open_mean [5]%Q 5 6 = Finite 5).
Proof.
  split.
  - destruct (init_ok (heap_of [5; 10; 15]%Q) 1%positive _ eq_refl)
      as (h' & e & Hi & _).
    exists h', e. split; [exact Hi|].
    vm_compute in Hi. injection Hi as <- <-. split; vm_compute; reflexivity.
  - destruct (init_ok (heap_of [5]%Q) 1%positive _ eq_refl)
      as (h' & e & Hi & _).
    exists h', e. split; [exact Hi|].
    vm_compute in Hi. injection Hi as <- <-. split; vm_compute; reflexivity.
Qed.

(** ** sample *)

(** C3 (the code departs from it).  [sample] with [size] alone raises an
    [AssertionError] for every weight vector, and [sample] with both
    [size] and [u] is accepted: the assertion [size is None] sits in the
    branch where [u] is missing. *)
Theorem sample_size_alone_rejected :
  (forall w k g, sample w (Some k) None g = Raise AssertionError) /\
  sample [1; 1; 2]%Q (Some 3) (Some (Scalar (1 # 2)%Q)) half_stream
    = Ok (Scalar 1, half_stream).
Proof.
  split; [intros w k g; reflexivity | vm_compute; reflexivity].
Qed.

(** ** Cumulative sums *)

Lemma cumsum_from_length (acc : Q) (w : list Q) :
  length (np.cumsum_from acc w) = length w.
Proof. revert acc. induction w as [|a w IH]; intros acc; simpl; [|rewrite IH]; reflexivity. Qed.

Lemma cumsum_from_ge (acc : Q) (w : list Q) :
  Forall (fun wi => (0 <= wi)%Q) w ->
  Forall (fun c => (acc <= c)%Q) (np.cumsum_from acc w).
Proof.
  intros Hw. revert acc. induction Hw as [|a w Ha Hw IH]; intros acc; simpl.
  - constructor.
  - constructor; [lra|].
    eapply List.Forall_impl; [|apply IH]. intros c Hc. simpl in Hc. lra.
Qed.

(** Non-negative weights have non-decreasing cumulative sums. *)
Lemma cumsum_from_sorted (acc : Q) (w : list Q) :
  Forall (fun wi => (0 <= wi)%Q) w -> StronglySorted Qle (np.cumsum_from acc w).
Proof.
  intros Hw. revert acc. induction Hw as [|a w Ha Hw IH]; intros acc; simpl.
  - constructor.
  - constructor; [apply IH|]. now apply cumsum_from_ge.
Qed.

(** The last cumulative sum is the total mass. *)
Lemma cumsum_from_last (acc : Q) (w : list Q) :
  w <> [] ->
  exists total,
    last (np.cumsum_from acc w) = Some total /\
    nth (length w - 1) (np.cumsum_from acc w) 0%Q = total /\
    (total == acc + total_mass w)%Q.
Proof.
  revert acc. induction w as [|a w IH]; intros acc Hne; [congruence|].
  destruct w as [|b w].
  - exists (acc + a)%Q. simpl. repeat split; try reflexivity. lra.
  - destruct (IH (acc + a)%Q) as (total & Hlast & Hnth & Htot); [discriminate|].
    exists total. split; [|split].
    + exact Hlast.
    + simpl in *. rewrite Nat.sub_0_r in Hnth. exact Hnth.
    + rewrite Htot. simpl. lra.
Qed.

(** On a sorted array whose last element reaches the key, side='left'
    finds the smallest index whose element reaches the key. *)
Lemma searchsorted_left_least (c : list Q) (v : Q) :
  StronglySorted Qle c -> c <> [] -> (v <= nth (length c - 1) c 0)%Q ->
  least_index_ge c v (np.searchsorted c v np.left).
Proof.
  intros Hs Hne Hlast.
  destruct (searchsorted_split c v np.left Hs) as [Hlo Hhi].
  pose proof (searchsorted_le_length c v np.left) as Hle.
  assert (Hlen : 0 < length c) by (destruct c; [congruence | simpl; lia]).
  set (r := np.searchsorted c v np.left) in *.
  assert (Hr : r < length c).
  { destruct (Nat.eq_dec r (length c)) as [Heq|]; [|lia].
    specialize (Hlo (length c - 1)). rewrite above_left_iff in Hlo.
    exfalso. apply (Qlt_not_le _ _ (Hlo ltac:(lia))). exact Hlast. }
  split; [exact Hr|]. split.
  - specialize (Hhi r ltac:(lia)). simpl in Hhi.
    destruct (Qlt_le_dec (nth r c 0%Q) v) as [Hlt|Hge]; [|exact Hge].
    apply Qlt_bool_iff in Hlt. congruence.
  - intros j Hj. apply above_left_iff. now apply Hlo.
Qed.

Lemma nd_Forall2_map {A B : Type} (P : A -> Prop) (R : A -> B -> Prop)
    (f : A -> B) (v : nd A) :
  (forall a, P a -> R a (f a)) -> nd_Forall P v -> nd_Forall2 R v (nd_map f v).
Proof.
  intros H. destruct v as [a|l]; simpl; [apply H|].
  induction 1; simpl; constructor; auto.
Qed.



(** ** log_sample *)

(** Two searches that meet the same test results take the same steps. *)
Lemma binsearch_ext (fuel : nat) (s : np.side) (a a' : list Q) (key key' : Q)
    (lo hi : nat) :
  hi <= length a ->
  (forall i, i < length a ->
     np.above s key (nth i a 0%Q) = np.above s key' (nth i a' 0%Q)) ->
  np.binsearch fuel s a key lo hi = np.binsearch fuel s a' key' lo hi.
Proof.
  intros Hhi Hsame. revert lo hi Hhi.
  induction fuel as [|fuel IH]; intros lo hi Hhi; cbn [np.binsearch]; [reflexivity|].
  destruct (Nat.ltb_spec lo hi) as [Hlt|Hge]; [|reflexivity].
  assert (Hmid : (hi - lo) / 2 < hi - lo) by (apply Nat.div_lt; lia).
  rewrite <- Hsame by lia.
  destruct (np.above s key _); apply IH; lia.
Qed.

(** Scaling by [k > 0] does not change the outcome of the search's test. *)
Lemma above_scale (s : np.side) (k key key' a a' : Q) :
  (0 < k)%Q -> (key == k * key')%Q -> (a == k * a')%Q ->
  np.above s key a = np.above s key' a'.
Proof.
  intros Hk Hkey Ha. destruct s; simpl.
  - destruct (Qlt_bool a' key') eqn:E.
    + apply Qlt_bool_iff in E. apply Qlt_bool_iff. rewrite Hkey, Ha. nra.
    + destruct (Qlt_bool a key) eqn:E'; [|reflexivity].
      apply Qlt_bool_iff in E'. rewrite Hkey, Ha in E'.
      assert (a' < key')%Q by nra. apply Qlt_bool_iff in H. congruence.
  - destruct (Qle_bool a' key') eqn:E.
    + apply Qle_bool_iff in E. apply Qle_bool_iff. rewrite Hkey, Ha. nra.
    + destruct (Qle_bool a key) eqn:E'; [|reflexivity].
      apply Qle_bool_iff in E'. rewrite Hkey, Ha in E'.
      assert (a' <= key')%Q by nra. apply Qle_bool_iff in H. congruence.
Qed.

Lemma cumsum_from_scale (k acc acc' : Q) (w w' : list Q) :
  (acc == k * acc')%Q -> Forall2 (fun x y => (x == k * y)%Q) w w' ->
  Forall2 (fun x y => (x == k * y)%Q) (np.cumsum_from acc w) (np.cumsum_from acc' w').
Proof.
  intros Hacc Hw. revert acc acc' Hacc.
  induction Hw as [|a a' w w' Ha Hw IH]; intros acc acc' Hacc; simpl.
  - constructor.
  - assert (Hstep : (acc + a == k * (acc' + a'))%Q) by (rewrite Hacc, Ha; ring).
    constructor; [exact Hstep | now apply IH].
Qed.

Lemma Forall2_nth_Q (R : Q -> Q -> Prop) (l l' : list Q) (i : nat) :
  Forall2 R l l' -> i < length l -> R (nth i l 0%Q) (nth i l' 0%Q).
Proof.
  intros H. revert i. induction H as [|a a' l l' Ha Hl IH]; intros i Hi; simpl in *.
  - lia.
  - destruct i as [|i]; [exact Ha | apply IH; lia].
Qed.

Lemma Forall2_last_Q (R : Q -> Q -> Prop) (l l' : list Q) :
  Forall2 R l l' ->
  match last l, last l' with
  | Some a, Some a' => R a a'
  | None, None => True
  | _, _ => False
  end.
Proof.
  induction 1 as [|a a' l l' Ha Hl IH]; simpl; [exact I|].
  destruct Hl as [|b b' l l' Hb Hl]; simpl in *; [exact Ha | exact IH].
Qed.

(** [sample] selects the same indices on weights rescaled by a positive
    constant, for the same random state. *)
Lemma sample_scale (k : Q) (w w' : list Q) (g : np.RandomState) :
  (0 < k)%Q -> Forall2 (fun x y => (x == k * y)%Q) w w' ->
  sample w None None g = sample w' None None g.
Proof.
  intros Hk Hw.
  assert (Hc : Forall2 (fun x y => (x == k * y)%Q) (np.cumsum w) (np.cumsum w')).
  { apply cumsum_from_scale; [ring | exact Hw]. }
  pose proof (Forall2_last_Q _ _ _ Hc) as Hlast.
  assert (Hlen : length (np.cumsum w) = length (np.cumsum w'))
    by (eapply Forall2_length; exact Hc).
  unfold sample, last_item. cbn.
  destruct (last (np.cumsum w)) as [t|], (last (np.cumsum w')) as [t'|];
    try contradiction; [|reflexivity].
  cbn. do 3 f_equal. unfold np.searchsorted. rewrite <- Hlen.
  apply binsearch_ext; [lia|].
  intros i Hi. apply (above_scale _ k).
  - exact Hk.
  - rewrite Hlast. ring.
  - now apply (Forall2_nth_Q _ _ _ i Hc).
Qed.

(** [ndarray.max] returns an element that bounds all elements. *)
Lemma max_spec (w : list Q) (m : Q) :
  np.max w = Some m -> In m w /\ forall x, In x w -> (x <= m)%Q.
Proof.
  destruct w as [|a w]; simpl; [discriminate|]. intros [= <-].
  revert a. induction w as [|b w IH]; intros a; simpl.
  - split; [now left|]. intros x [<-|[]]. lra.
  - destruct (IH (Qmax a b)) as [Hin Hle]. split.
    + destruct Hin as [Heq|Hin]; [|now right; right].
      rewrite <- Heq. unfold Qmax, GenericMinMax.gmax.
      destruct (a ?= b)%Q; [now left | now right; left | now left].
    + intros x [<-|[<-|Hx]].
      * eapply Qle_trans; [apply Q.le_max_l|]. apply Hle. now left.
      * eapply Qle_trans; [apply Q.le_max_r|]. apply Hle. now left.
      * apply Hle. now right.
Qed.



(** ** TruncatedDistribution *)

Lemma truncated_init_ok (d0 : Distribution) (a0 b0 : Q) :
  (a0 <= b0)%Q ->
  TruncatedDistribution.__init__ d0 a0 b0 =
    Ok (TruncatedDistribution.attributes d0 a0 b0).
Proof.
  intros Hab. unfold TruncatedDistribution.__init__.
  apply Qle_bool_iff in Hab. rewrite Hab. reflexivity.
Qed.

(** The cdf on and above [a], and below [a]. *)
Lemma truncated_cdf_cases (t : TruncatedDistribution.t) (x : Q) :
  ((TruncatedDistribution.a t <= x)%Q ->
   (TruncatedDistribution.cdf t x ==
      Qmin 1 ((d_cdf (TruncatedDistribution.d t) x - TruncatedDistribution.cdf_a t)
              / TruncatedDistribution.cdf_w t))%Q) /\
  ((x < TruncatedDistribution.a t)%Q -> (TruncatedDistribution.cdf t x == 0)%Q).
Proof.
  unfold TruncatedDistribution.cdf, np.minimum, TruncatedDistribution.ind.
  split; intros Hx.
  - apply Qle_bool_iff in Hx. rewrite Hx.
    apply Q.min_compat; [reflexivity|]. unfold Qdiv. ring.
  - apply Qle_bool_false_iff in Hx. rewrite Hx.
    assert (Hz : (0 * (d_cdf (TruncatedDistribution.d t) x
                       - TruncatedDistribution.cdf_a t)
                  / TruncatedDistribution.cdf_w t == 0)%Q)
      by (unfold Qdiv; ring).
    rewrite Hz. apply Q.min_r. lra.
Qed.

(** C5.  For [TruncatedDistribution(D, a, b)] with [cdf_w > 0], for every
    [x], [cdf(x)] is [min(1, (D.cdf(x) - cdf_a) / cdf_w)] when [x >= a]
    and 0 when [x < a]; in particular [cdf(a) == 0] and [cdf(b) == 1]. *)
Theorem truncated_cdf_formula (d0 : Distribution) (a0 b0 : Q) :
  (a0 <= b0)%Q -> (0 < d_cdf d0 b0 - d_cdf d0 a0)%Q ->
  exists t,
    TruncatedDistribution.__init__ d0 a0 b0 = Ok t /\
    TruncatedDistribution.cdf_a t = d_cdf d0 a0 /\
    TruncatedDistribution.cdf_w t = (d_cdf d0 b0 - d_cdf d0 a0)%Q /\
    (forall x, (a0 <= x)%Q ->
       (TruncatedDistribution.cdf t x ==
          Qmin 1 ((d_cdf d0 x - TruncatedDistribution.cdf_a t)
                  / TruncatedDistribution.cdf_w t))%Q) /\
    (forall x, (x < a0)%Q -> (TruncatedDistribution.cdf t x == 0)%Q) /\
    (TruncatedDistribution.cdf t a0 == 0)%Q /\
    (TruncatedDistribution.cdf t b0 == 1)%Q.
Proof.
  intros Hab Hw. eexists. split; [now apply truncated_init_ok|].
  split; [reflexivity|]. split; [reflexivity|].
  set (t := TruncatedDistribution.attributes d0 a0 b0).
  split; [|split; [|split]].
  - intros x Hx. now apply (truncated_cdf_cases t x).
  - intros x Hx. now apply (truncated_cdf_cases t x).
  - destruct (truncated_cdf_cases t a0) as [H _]. rewrite H by (simpl; lra).
    simpl.
    assert (Hz : ((d_cdf d0 a0 - d_cdf d0 a0) / (d_cdf d0 b0 - d_cdf d0 a0) == 0)%Q)
      by (field; lra).
    rewrite Hz. apply Q.min_r. lra.
  - destruct (truncated_cdf_cases t b0) as [H _]. rewrite H by (simpl; lra).
    simpl.
    assert (Hz : ((d_cdf d0 b0 - d_cdf d0 a0) / (d_cdf d0 b0 - d_cdf d0 a0) == 1)%Q)
      by (field; lra).
    rewrite Hz. reflexivity.
Qed.

Lemma truncated_cdf_formula_witness :
  exists t,
    TruncatedDistribution.__init__ uniform01 (1 # 4) (3 # 4) = Ok t /\
    TruncatedDistribution.cdf_a t = d_cdf uniform01 (1 # 4) /\
    TruncatedDistribution.cdf_w t
      = (d_cdf uniform01 (3 # 4) - d_cdf uniform01 (1 # 4))%Q /\
    (forall x, (1 # 4 <= x)%Q ->
       (TruncatedDistribution.cdf t x ==
          Qmin 1 ((d_cdf uniform01 x - TruncatedDistribution.cdf_a t)
                  / TruncatedDistribution.cdf_w t))%Q) /\
    (forall x, (x < 1 # 4)%Q -> (TruncatedDistribution.cdf t x == 0)%Q) /\
    (TruncatedDistribution.cdf t (1 # 4) == 0)%Q /\
    (TruncatedDistribution.cdf t (3 # 4) == 1)%Q.
Proof.
  apply (truncated_cdf_formula uniform01 (1 # 4) (3 # 4)).
  - discriminate.
  - reflexivity.
Defined.

Section RoundTrip.

(** The wrapped distribution and its contract: the cdf is a
    non-decreasing map into [0, 1], and the ppf is its exact inverse,
    on [0, 1] from the right and wherever the density is positive from
    the left; the ppf does not tell equal rationals apart. *)
Variable d0 : Distribution.
Hypothesis ppf_compat : forall p p', (p == p')%Q -> (d_ppf d0 p == d_ppf d0 p')%Q.
Hypothesis cdf_range : forall x, (0 <= d_cdf d0 x <= 1)%Q.
Hypothesis cdf_mono : forall x y, (x <= y)%Q -> (d_cdf d0 x <= d_cdf d0 y)%Q.
Hypothesis cdf_ppf : forall p, (0 <= p <= 1)%Q -> (d_cdf d0 (d_ppf d0 p) == p)%Q.
Hypothesis ppf_cdf : forall x, (0 < d_pdf d0 x)%Q -> (d_ppf d0 (d_cdf d0 x) == x)%Q.

Variables a0 b0 : Q.
Hypothesis a_le_b : (a0 <= b0)%Q.
Hypothesis mass_pos : (0 < d_cdf d0 b0 - d_cdf d0 a0)%Q.

Local Abbreviation t := (TruncatedDistribution.attributes d0 a0 b0).

Lemma truncated_cdf_ppf (u : Q) :
  (0 <= u <= 1)%Q ->
  (TruncatedDistribution.cdf t (TruncatedDistribution.ppf t u) == u)%Q.
Proof.
  intros [Hu0 Hu1].
  pose proof (cdf_range a0) as Ha. pose proof (cdf_range b0) as Hb.
  set (p := (d_cdf d0 a0 + u * (d_cdf d0 b0 - d_cdf d0 a0))%Q).
  assert (Hp : (0 <= p <= 1)%Q) by (unfold p; split; nra).
  pose proof (cdf_ppf p Hp) as Hinv.
  unfold TruncatedDistribution.cdf, TruncatedDistribution.ppf, np.minimum,
    TruncatedDistribution.ind.
  cbn [TruncatedDistribution.d TruncatedDistribution.a TruncatedDistribution.cdf_a
       TruncatedDistribution.cdf_w TruncatedDistribution.attributes].
  fold p. case_Qle a0 (d_ppf d0 p).
  - assert (Hr : (1 * (d_cdf d0 (d_ppf d0 p) - d_cdf d0 a0)
                  / (d_cdf d0 b0 - d_cdf d0 a0) == u)%Q).
    { rewrite Hinv. unfold p. field. lra. }
    rewrite Hr. apply Q.min_r. exact Hu1.
  - assert (Hz : (0 * (d_cdf d0 (d_ppf d0 p) - d_cdf d0 a0)
                  / (d_cdf d0 b0 - d_cdf d0 a0) == 0)%Q)
      by (unfold Qdiv; ring).
    rewrite Hz, Q.min_r by lra.
    (* below [a] the base cdf is at most [cdf_a], so [u] is 0 *)
    assert (Hle : (d_cdf d0 (d_ppf d0 p) <= d_cdf d0 a0)%Q)
      by (apply cdf_mono; lra).
    rewrite Hinv in Hle. unfold p in Hle. nra.
Qed.

Lemma truncated_pdf_pos (x : Q) :
  (0 < TruncatedDistribution.pdf t x)%Q ->
  (a0 <= x <= b0)%Q /\ (0 < d_pdf d0 x)%Q.
Proof.
  unfold TruncatedDistribution.pdf, TruncatedDistribution.ind.
  cbn [TruncatedDistribution.d TruncatedDistribution.a TruncatedDistribution.b
       TruncatedDistribution.cdf_w TruncatedDistribution.attributes].
  assert (Hinv : (0 < / (d_cdf d0 b0 - d_cdf d0 a0))%Q)
    by now apply Qinv_lt_0_compat.
  unfold Qdiv. case_Qle a0 x; case_Qle x b0; intros H.
  - split; [lra|]. nra.
  - exfalso. nra.
  - exfalso. nra.
  - exfalso. nra.
Qed.

Lemma truncated_ppf_cdf (x : Q) :
  (a0 <= x <= b0)%Q -> (0 < TruncatedDistribution.pdf t x)%Q ->
  (TruncatedDistribution.ppf t (TruncatedDistribution.cdf t x) == x)%Q.
Proof.
  intros [Hxa Hxb] Hpdf. apply truncated_pdf_pos in Hpdf as [_ Hpdf].
  destruct (truncated_cdf_cases t x) as [Hcdf _].
  specialize (Hcdf Hxa).
  cbn [TruncatedDistribution.d TruncatedDistribution.a TruncatedDistribution.cdf_a
       TruncatedDistribution.cdf_w TruncatedDistribution.attributes] in Hcdf.
  pose proof (cdf_mono x b0 Hxb) as Hle. pose proof (cdf_mono a0 x Hxa) as Hge.
  assert (Hratio : ((d_cdf d0 x - d_cdf d0 a0) / (d_cdf d0 b0 - d_cdf d0 a0) <= 1)%Q).
  { apply Qle_shift_div_r; [exact mass_pos | lra]. }
  rewrite Q.min_r in Hcdf by exact Hratio.
  unfold TruncatedDistribution.ppf.
  cbn [TruncatedDistribution.d TruncatedDistribution.cdf_a
       TruncatedDistribution.cdf_w TruncatedDistribution.attributes].
  rewrite <- (ppf_cdf x Hpdf) at 2. apply ppf_compat.
  rewrite Hcdf. field. lra.
Qed.


End RoundTrip.

(** The uniform distribution on [0, 1] meets the contract. *)
Lemma uniform01_cdf_range (x : Q) : (0 <= d_cdf uniform01 x <= 1)%Q.
Proof. simpl. case_Qle x 0%Q; [lra|]. case_Qle 1%Q x; lra. Qed.

Lemma uniform01_cdf_mono (x y : Q) :
  (x <= y)%Q -> (d_cdf uniform01 x <= d_cdf uniform01 y)%Q.
Proof.
  intros Hxy. simpl.
  case_Qle x 0%Q; case_Qle y 0%Q; try case_Qle 1%Q x; try case_Qle 1%Q y; lra.
Qed.

Lemma uniform01_cdf_ppf (p : Q) :
  (0 <= p <= 1)%Q -> (d_cdf uniform01 (d_ppf uniform01 p) == p)%Q.
Proof. intros Hp. simpl. case_Qle p 0%Q; [lra|]. case_Qle 1%Q p; lra. Qed.

Lemma uniform01_ppf_cdf (x : Q) :
  (0 < d_pdf uniform01 x)%Q -> (d_ppf uniform01 (d_cdf uniform01 x) == x)%Q.
Proof.
  simpl. case_Qle 0%Q x; case_Qle x 1%Q; simpl; intros H; try lra.
  case_Qle x 0%Q; [lra|]. case_Qle 1%Q x; lra.
Qed.


(** * Further properties of the module *)

(** ** Empirical: shape of the cdf *)

Lemma count_mono (p p' : Q -> bool) (l : list Q) :
  (forall a, In a l -> p a = true -> p' a = true) -> count p l <= count p' l.
Proof.
  induction l as [|a l IH]; intros H; simpl; [lia|].
  assert (IH' : count p l <= count p' l) by (apply IH; intros; apply H; [now right | assumption]).
  destruct (p a) eqn:E; [|lia].
  rewrite (H a (or_introl eq_refl) E). lia.
Qed.

Lemma count_none (p : Q -> bool) (l : list Q) :
  (forall a, In a l -> p a = false) -> count p l = 0.
Proof.
  induction l as [|a l IH]; intros H; simpl; [reflexivity|].
  rewrite (H a (or_introl eq_refl)), IH; [reflexivity|].
  intros b Hb. apply H. now right.
Qed.

Lemma count_all (p : Q -> bool) (l : list Q) :
  (forall a, In a l -> p a = true) -> count p l = length l.
Proof.
  induction l as [|a l IH]; intros H; simpl; [reflexivity|].
  rewrite (H a (or_introl eq_refl)), IH; [reflexivity|].
  intros b Hb. apply H. now right.
Qed.

Lemma count_negb (p : Q -> bool) (l : list Q) :
  count p l + count (fun a => negb (p a)) l = length l.
Proof. induction l as [|a l IH]; simpl; [reflexivity|]. destruct (p a); simpl; lia. Qed.

Lemma nonempty_length (l : list Q) : l <> [] -> 0 < length l.
Proof. destruct l; [congruence | simpl; lia]. Qed.

Lemma Qnat_0 : (Qnat 0 == 0)%Q.
Proof. reflexivity. Qed.

Lemma Qnat_ratio_self (n : nat) : 0 < n -> (Qnat n / Qnat n == 1)%Q.
Proof. intros Hn. pose proof (Qnat_pos n Hn). field. lra. Qed.

(** The empirical cdf is non-decreasing, is 0 to the left of all samples
    and 1 from the largest sample on. *)
Theorem cdf_monotone_with_limits (h : heap) (x0 : loc) (data : list Q) :
  h !! x0 = Some data -> data <> [] ->
  exists h' e,
    Empirical.__init__ h x0 = Ok (h', e) /\
    (forall z z', (z <= z')%Q ->
       (Empirical.call1 h' e z <= Empirical.call1 h' e z')%Q) /\
    (forall z, (forall v, In v data -> (z < v)%Q) ->
       (Empirical.call1 h' e z == 0)%Q) /\
    (forall z, (forall v, In v data -> (v <= z)%Q) ->
       (Empirical.call1 h' e z == 1)%Q).
Proof.
  intros Hx Hne. destruct (init_ok h x0 data Hx) as (h' & e & Hi & _).
  exists h', e. split; [exact Hi|].
  pose proof (nonempty_length data Hne) as Hn.
  split; [|split].
  - intros z z' Hz. rewrite !(call1_fraction_le h h' x0 data e _ Hx Hi).
    unfold fraction_le. apply Qnat_ratio_le; [exact Hn|].
    apply count_mono. intros a _ Ha. apply Qle_bool_iff in Ha.
    apply Qle_bool_iff. lra.
  - intros z Hz. rewrite (call1_fraction_le h h' x0 data e _ Hx Hi).
    unfold fraction_le. rewrite count_none.
    + unfold Qdiv. rewrite Qnat_0. ring.
    + intros a Ha. apply Qle_bool_false_iff. now apply Hz.
  - intros z Hz. rewrite (call1_fraction_le h h' x0 data e _ Hx Hi).
    unfold fraction_le. rewrite count_all.
    + now apply Qnat_ratio_self.
    + intros a Ha. apply Qle_bool_iff. now apply Hz.
Qed.

Lemma cdf_monotone_with_limits_witness :
  exists h' e,
    Empirical.__init__ (heap_of [15; 5; 10]%Q) 1%positive = Ok (h', e) /\
    (forall z z', (z <= z')%Q ->
       (Empirical.call1 h' e z <= Empirical.call1 h' e z')%Q) /\
    (forall z, (forall v, In v [15; 5; 10]%Q -> (z < v)%Q) ->
       (Empirical.call1 h' e z == 0)%Q) /\
    (forall z, (forall v, In v [15; 5; 10]%Q -> (v <= z)%Q) ->
       (Empirical.call1 h' e z == 1)%Q).
Proof.
  apply (cdf_monotone_with_limits (heap_of [15; 5; 10]%Q) 1%positive).
  - reflexivity.
  - discriminate.
Defined.

(** [sf(z)] is, per element, the fraction of the samples strictly above
    [z]; with the cdf it adds up to 1. *)
Theorem sf_counts_samples_above (h : heap) (x0 : loc) (data : list Q) (z : nd Q) :
  h !! x0 = Some data -> data <> [] ->
  exists h' e,
    Empirical.__init__ h x0 = Ok (h', e) /\
    nd_Forall2
      (fun zi s =>
         (s == Qnat (count (fun v => Qlt_bool zi v) data) / Qnat (length data))%Q /\
         (s + Empirical.call1 h' e zi == 1)%Q /\ (0 <= s <= 1)%Q)
      z (Empirical.sf h' e z).
Proof.
  intros Hx Hne. destruct (init_ok h x0 data Hx) as (h' & e & Hi & _).
  exists h', e. split; [exact Hi|].
  pose proof (nonempty_length data Hne) as Hn.
  pose proof (Qnat_pos _ Hn) as Hn'.
  assert (Hone : forall zi,
    (1 - Empirical.call1 h' e zi
       == Qnat (count (fun v => Qlt_bool zi v) data) / Qnat (length data))%Q).
  { intros zi. rewrite (call1_fraction_le h h' x0 data e _ Hx Hi).
    unfold fraction_le.
    pose proof (count_negb (fun v => Qle_bool v zi) data) as Hc.
    change (fun a : Q => negb (Qle_bool a zi)) with (fun v : Q => Qlt_bool zi v) in Hc.
    assert (HQ : (Qnat (length data)
                  == Qnat (count (fun v => Qle_bool v zi) data)
                     + Qnat (count (fun v => Qlt_bool zi v) data))%Q).
    { rewrite <- Hc. unfold Qnat. rewrite Nat2Z.inj_add, inject_Z_plus. reflexivity. }
    set (N := Qnat (length data)) in *.
    set (A := Qnat (count (fun v => Qle_bool v zi) data)) in *.
    set (B := Qnat (count (fun v => Qlt_bool zi v) data)) in *.
    assert (HB : (B == N - A)%Q) by lra.
    rewrite HB. field. lra. }
  unfold Empirical.sf, Empirical.cdf, Empirical.__call__.
  assert (Hel : forall zi,
    (1 - Empirical.call1 h' e zi
       == Qnat (count (fun v => Qlt_bool zi v) data) / Qnat (length data))%Q /\
    (1 - Empirical.call1 h' e zi + Empirical.call1 h' e zi == 1)%Q /\
    (0 <= 1 - Empirical.call1 h' e zi <= 1)%Q).
  { intros zi. split; [apply Hone|]. split; [ring|].
    rewrite Hone. apply Qnat_ratio_bounds; [|exact Hn].
    pose proof (count_le_length (fun v => Qlt_bool zi v) data). lia. }
  destruct z as [zi|zs]; simpl.
  - apply Hel.
  - induction zs as [|zi zs IH]; simpl; constructor; [apply Hel | exact IH].
Qed.

Lemma sf_counts_samples_above_witness :
  exists h' e,
    Empirical.__init__ (heap_of [5; 5; 15]%Q) 1%positive = Ok (h', e) /\
    nd_Forall2
      (fun zi s =>
         (s == Qnat (count (fun v => Qlt_bool zi v) [5; 5; 15]%Q)
               / Qnat (length [5; 5; 15]%Q))%Q /\
         (s + Empirical.call1 h' e zi == 1)%Q /\ (0 <= s <= 1)%Q)
      (Array [0; 5; 15]%Q) (Empirical.sf h' e (Array [0; 5; 15]%Q)).
Proof.
  apply (sf_counts_samples_above (heap_of [5; 5; 15]%Q) 1%positive).
  - reflexivity.
  - discriminate.
Defined.

(** ** Empirical: quantile, its precondition and its relation to the cdf *)

Lemma nd_all_true_iff (p : Q -> bool) (P : Q -> Prop) (v : nd Q) :
  (forall a, p a = true <-> P a) -> nd_all p v = true <-> nd_Forall P v.
Proof.
  intros H. destruct v as [a|l]; simpl; [apply H|].
  induction l as [|a l IH]; simpl.
  - split; [constructor | reflexivity].
  - rewrite andb_true_iff, IH, H. split.
    + intros [Ha Hl]. now constructor.
    + intros Hal. inversion Hal; subst. now split.
Qed.

Lemma in_unit_bool_iff (q : Q) :
  Qle_bool 0 q && Qle_bool q 1 = true <-> (0 <= q <= 1)%Q.
Proof. now rewrite andb_true_iff, !Qle_bool_iff. Qed.

Lemma quantile1_not_assertion (h : heap) (e : Empirical.t) (q : Q) :
  Empirical.quantile1 h e q <> Raise AssertionError.
Proof.
  unfold Empirical.quantile1, np.quantile_lower.
  destruct (nth_error _ _); discriminate.
Qed.

Lemma each_not_assertion (f : Q -> result Q) (qs : list Q) :
  (forall q, f q <> Raise AssertionError) -> each f qs <> Raise AssertionError.
Proof.
  intros Hf. induction qs as [|q qs IH]; cbn [each]; [discriminate|].
  specialize (Hf q). destruct (f q) as [v|ex]; cbn; [|congruence].
  destruct (each f qs) as [vs|ex]; cbn; [discriminate | congruence].
Qed.

(** [quantile] raises an [AssertionError] exactly when some element of
    [q] lies outside [0, 1], whatever the samples are. *)
Theorem quantile_assertion_iff (h : heap) (e : Empirical.t) (q : nd Q) :
  Empirical.quantile h e q = Raise AssertionError <->
  ~ nd_Forall (fun qi => (0 <= qi <= 1)%Q) q.
Proof.
  unfold Empirical.quantile.
  pose proof (nd_all_true_iff _ _ q in_unit_bool_iff) as Hall.
  destruct (nd_all _ q) eqn:E; cbn.
  - split.
    + intros Hr. exfalso. destruct q as [qi|qs].
      * pose proof (quantile1_not_assertion h e qi) as Hq.
        destruct (Empirical.quantile1 h e qi); cbn in Hr; congruence.
      * pose proof (each_not_assertion _ qs (quantile1_not_assertion h e)) as Hq.
        destruct (each _ qs); cbn in Hr; congruence.
    + intros Hn. exfalso. apply Hn, Hall. reflexivity.
  - split; [|reflexivity].
    intros _ Hf. apply Hall in Hf. discriminate.
Qed.

Lemma quantile_scalar_ok (h h' : heap) (x0 : loc) (data : list Q)
    (e : Empirical.t) (q : Q) :
  h !! x0 = Some data -> Empirical.__init__ h x0 = Ok (h', e) ->
  data <> [] -> (0 <= q <= 1)%Q ->
  Empirical.quantile h' e (Scalar q)
    = Ok (Scalar (nth (np.lower_index (length data) q) (np.sort data) 0%Q)).
Proof.
  intros Hx Hi Hne Hq.
  destruct (quantile1_ok h h' x0 data e q Hx Hi Hne Hq) as (v & Hv & Hnth & _).
  unfold Empirical.quantile. cbn [nd_all].
  rewrite (proj2 (in_unit_bool_iff q) Hq). cbn. rewrite Hv. cbn.
  do 2 f_equal. symmetry. now apply nth_error_nth.
Qed.

Lemma Qfloor_unique (x : Q) (z : Z) :
  (inject_Z z <= x < inject_Z (z + 1))%Q -> Qfloor x = z.
Proof.
  intros [Hlo Hhi].
  apply Qfloor_resp_le in Hlo. rewrite Qfloor_Z in Hlo.
  assert (Hlt : (inject_Z (Qfloor x) < inject_Z (z + 1))%Q)
    by (eapply Qle_lt_trans; [apply Qfloor_le | exact Hhi]).
  rewrite <- Zlt_Qlt in Hlt. lia.
Qed.

(** At the cdf value [k / n] the 'lower' index is [k - 1]. *)
Lemma lower_index_ratio (k n : nat) :
  1 <= k <= n -> np.lower_index n (Qnat k / Qnat n) = k - 1.
Proof.
  intros [Hk Hn]. unfold np.lower_index.
  pose proof (Qnat_pos n ltac:(lia)) as HN. pose proof (Qnat_pos k ltac:(lia)) as HK.
  assert (HKN : (Qnat k <= Qnat n)%Q) by now apply Qnat_le.
  assert (Hr : (0 < Qnat k / Qnat n <= 1)%Q).
  { split; [now apply Qlt_shift_div_l; lra|]. apply Qle_shift_div_r; lra. }
  assert (Hx : (Qnat k / Qnat n * (Qnat n - 1) == Qnat k - Qnat k / Qnat n)%Q)
    by (field; lra).
  rewrite (Qfloor_unique _ (Z.of_nat k - 1)); [lia|].
  rewrite Hx. replace (Z.of_nat k - 1 + 1)%Z with (Z.of_nat k) by lia.
  assert (Hk1 : (inject_Z (Z.of_nat k - 1) == Qnat k - 1)%Q).
  { unfold Qnat, Z.sub. rewrite inject_Z_plus, inject_Z_opp. reflexivity. }
  rewrite Hk1. fold (Qnat k). lra.
Qed.

(** The docstring's "the quantile function should be the inverse of the
    cdf", on the samples: [quantile(cdf(v)) == v] for every stored [v]. *)
Theorem quantile_cdf_round_trip (h : heap) (x0 : loc) (data : list Q) (v : Q) :
  h !! x0 = Some data -> In v data ->
  exists h' e r,
    Empirical.__init__ h x0 = Ok (h', e) /\
    Empirical.quantile h' e (Empirical.cdf h' e (Scalar v)) = Ok (Scalar r) /\
    (r == v)%Q.
Proof.
  intros Hx Hin. destruct (init_ok h x0 data Hx) as (h' & e & Hi & _).
  assert (Hne : data <> []) by (intros ->; contradiction).
  pose proof (nonempty_length data Hne) as Hn.
  pose proof (sort_sorted data) as Hs. pose proof (sort_length data) as Hl.
  set (k := count (fun a => Qle_bool a v) data).
  assert (Hk : k = np.searchsorted (np.sort data) v np.right).
  { rewrite searchsorted_count by exact Hs. unfold k.
    apply (count_Permutation _ _ _ (sort_Permutation data)). }
  destruct (searchsorted_split (np.sort data) v np.right Hs) as [Hlo Hhi].
  rewrite <- Hk in Hlo, Hhi.
  assert (Hin' : In v (np.sort data))
    by (eapply Permutation_in; [apply sort_Permutation | exact Hin]).
  destruct (In_nth _ _ 0%Q Hin') as (j & Hj & Hjv).
  assert (Hjk : j < k).
  { destruct (Nat.lt_ge_cases j k) as [|Hge]; [assumption|].
    specialize (Hhi j ltac:(lia)). rewrite Hjv in Hhi. simpl in Hhi.
    apply Qle_bool_false_iff in Hhi. lra. }
  assert (Hkn : k <= length data)
    by (unfold k; apply count_le_length).
  exists h', e, (nth (k - 1) (np.sort data) 0%Q). split; [exact Hi|]. split.
  - unfold Empirical.cdf, Empirical.__call__. cbn [nd_map].
    rewrite (call1_fraction_le h h' x0 data e v Hx Hi). unfold fraction_le. fold k.
    rewrite (quantile_scalar_ok h h' x0 data e _ Hx Hi Hne).
    + rewrite lower_index_ratio by lia. reflexivity.
    + apply Qnat_ratio_bounds; [exact Hkn | exact Hn].
  - apply Qle_antisym.
    + specialize (Hlo (k - 1) ltac:(lia)). now apply above_right_iff in Hlo.
    + rewrite <- Hjv. apply sorted_nth; [exact Hs | lia].
Qed.

Lemma quantile_cdf_round_trip_witness :
  exists h' e r,
    Empirical.__init__ (heap_of [-1; 5; 5; 15]%Q) 1%positive = Ok (h', e) /\
    Empirical.quantile h' e (Empirical.cdf h' e (Scalar 5%Q)) = Ok (Scalar r) /\
    (r == 5)%Q.
Proof.
  apply (quantile_cdf_round_trip (heap_of [-1; 5; 5; 15]%Q) 1%positive
           [-1; 5; 5; 15]%Q).
  - reflexivity.
  - simpl. auto.
Defined.

Lemma lower_index_mono (n : nat) (q q' : Q) :
  0 < n -> (0 <= q)%Q -> (q <= q')%Q ->
  np.lower_index n q <= np.lower_index n q'.
Proof.
  intros Hn Hq Hqq. unfold np.lower_index.
  assert (Hm : (0 <= Qnat n - 1)%Q).
  { assert (Qnat 1 <= Qnat n)%Q by (apply Qnat_le; lia).
    change (Qnat 1) with 1%Q in H. lra. }
  apply Z2Nat.inj_le.
  - rewrite <- (Qfloor_Z 0). apply Qfloor_resp_le. change (inject_Z 0) with 0%Q. nra.
  - rewrite <- (Qfloor_Z 0). apply Qfloor_resp_le. change (inject_Z 0) with 0%Q. nra.
  - apply Qfloor_resp_le. nra.
Qed.

(** [quantile] is non-decreasing in [q]. *)
Theorem quantile_monotone (h : heap) (x0 : loc) (data : list Q) (q q' : Q) :
  h !! x0 = Some data -> data <> [] ->
  (0 <= q)%Q -> (q <= q')%Q -> (q' <= 1)%Q ->
  exists h' e v v',
    Empirical.__init__ h x0 = Ok (h', e) /\
    Empirical.quantile h' e (Scalar q) = Ok (Scalar v) /\
    Empirical.quantile h' e (Scalar q') = Ok (Scalar v') /\
    (v <= v')%Q.
Proof.
  intros Hx Hne Hq Hqq Hq'. destruct (init_ok h x0 data Hx) as (h' & e & Hi & _).
  pose proof (nonempty_length data Hne) as Hn.
  exists h', e. do 2 eexists. split; [exact Hi|].
  split; [apply (quantile_scalar_ok h h' x0 data e q Hx Hi Hne); lra|].
  split; [apply (quantile_scalar_ok h h' x0 data e q' Hx Hi Hne); lra|].
  apply sorted_nth; [apply sort_sorted|]. rewrite sort_length. split.
  - now apply lower_index_mono.
  - apply lower_index_bounds; [exact Hn | lra].
Qed.

Lemma quantile_monotone_witness :
  exists h' e v v',
    Empirical.__init__ (heap_of [15; -1; 5; 5]%Q) 1%positive = Ok (h', e) /\
    Empirical.quantile h' e (Scalar (1 # 3)%Q) = Ok (Scalar v) /\
    Empirical.quantile h' e (Scalar (9 # 10)%Q) = Ok (Scalar v') /\
    (v <= v')%Q.
Proof.
  apply (quantile_monotone (heap_of [15; -1; 5; 5]%Q) 1%positive
           [15; -1; 5; 5]%Q).
  - reflexivity.
  - discriminate.
  - discriminate.
  - discriminate.
  - discriminate.
Defined.

(** ** Empirical: what conditional_mean computes *)

(** A test that fails below index [lo], passes on [lo, hi) and fails from
    [hi] on selects exactly the elements of the index range. *)
Lemma filter_band (p : Q -> bool) (l : list Q) (lo hi : nat) :
  hi <= length l ->
  (forall i, i < lo -> i < length l -> p (nth i l 0%Q) = false) ->
  (forall i, lo <= i < hi -> p (nth i l 0%Q) = true) ->
  (forall i, hi <= i < length l -> p (nth i l 0%Q) = false) ->
  List.filter p l = map (fun i => nth i l 0%Q) (Empirical.range lo hi).
Proof.
  unfold Empirical.range. revert lo hi.
  induction l as [|x l IH]; intros lo hi Hhi Hbelow Hin Habove.
  - simpl in Hhi. replace (hi - lo) with 0 by lia. reflexivity.
  - cbn [List.filter]. destruct lo as [|lo].
    + destruct hi as [|hi].
      * assert (H0 : p x = false) by (apply (Habove 0); simpl; lia). rewrite H0.
        rewrite (IH 0 0); [reflexivity | lia | intros; lia | intros; lia |].
        intros i Hi. apply (Habove (S i)). simpl. lia.
      * assert (H0 : p x = true) by (apply (Hin 0); lia). rewrite H0.
        rewrite (IH 0 hi); [| simpl in Hhi; lia | intros; lia | |].
        -- rewrite !Nat.sub_0_r. cbn [seq map nth].
           f_equal. rewrite <- seq_shift, map_map. reflexivity.
        -- intros i Hi. apply (Hin (S i)). lia.
        -- intros i Hi. apply (Habove (S i)). simpl. lia.
    + assert (H0 : p x = false) by (apply (Hbelow 0); simpl; lia). rewrite H0.
      rewrite (IH lo (hi - 1)).
      * replace (hi - S lo) with (hi - 1 - lo) by lia.
        rewrite <- seq_shift, map_map. reflexivity.
      * simpl in Hhi. lia.
      * intros i Hi Hl. apply (Hbelow (S i)); simpl; lia.
      * intros i Hi. apply (Hin (S i)). lia.
      * intros i Hi. apply (Habove (S i)). simpl. lia.
Qed.

Lemma filter_Permutation_Q (p : Q -> bool) (l l' : list Q) :
  Permutation l l' -> Permutation (List.filter p l) (List.filter p l').
Proof.
  induction 1 as [| x l l' _ IH | x y l | l l' l'' _ IH1 _ IH2]; simpl.
  - constructor.
  - destruct (p x); [now constructor | exact IH].
  - destruct (p x), (p y); try reflexivity. apply perm_swap.
  - now transitivity (List.filter p l').
Qed.

Lemma total_mass_Permutation (l l' : list Q) :
  Permutation l l' -> (total_mass l == total_mass l')%Q.
Proof.
  induction 1 as [| x l l' _ IH | x y l | l l' l'' _ IH1 _ IH2]; simpl.
  - reflexivity.
  - now rewrite IH.
  - ring.
  - now rewrite IH1.
Qed.

Lemma Qnat_S (n : nat) : (Qnat (S n) == Qnat n + 1)%Q.
Proof. unfold Qnat. rewrite Nat2Z.inj_succ, <- Z.add_1_r, inject_Z_plus. reflexivity. Qed.

(** The loop of [conditional_mean]: the sum and the number of the visited
    elements. *)
Lemma conditional_mean_loop (xs : list Q) (idx : list nat) (m0 n0 : Q) :
  exists m n,
    fold_left (fun '(m, n) i => ((m + nth i xs 0)%Q, (n + 1)%Q)) idx (m0, n0) = (m, n) /\
    (m == m0 + total_mass (map (fun i => nth i xs 0%Q) idx))%Q /\
    (n == n0 + Qnat (length idx))%Q.
Proof.
  revert m0 n0. induction idx as [|i idx IH]; intros m0 n0.
  - exists m0, n0. simpl. repeat split; try reflexivity; rewrite ?Qnat_0; ring.
  - destruct (IH (m0 + nth i xs 0)%Q (n0 + 1)%Q) as (m & n & Hf & Hm & Hn).
    exists m, n. split; [exact Hf|]. split.
    + rewrite Hm. simpl. ring.
    + rewrite Hn. cbn [length]. rewrite Qnat_S. ring.
Qed.

(** On the constructed object, [conditional_mean(a, b)] is the mean of the
    samples strictly between [a] and [b], and [+infinity] without any. *)
Lemma conditional_mean_open_mean (h h' : heap) (x0 : loc) (data : list Q)
    (e : Empirical.t) (a b : Q) :
  h !! x0 = Some data -> Empirical.__init__ h x0 = Ok (h', e) ->
  ereal_eq (Empirical.conditional_mean h' e a b) (open_mean data a b).
Proof.
  intros Hx Hi. destruct (init_elements h h' x0 data e Hx Hi) as [Hel _].
  pose proof (sort_sorted data) as Hs.
  set (p := fun v => Qlt_bool a v && Qlt_bool v b).
  unfold Empirical.conditional_mean. rewrite Hel.
  set (lo := np.searchsorted (np.sort data) a np.right).
  set (hi := np.searchsorted (np.sort data) b np.left).
  destruct (searchsorted_split (np.sort data) a np.right Hs) as [Halo Hahi].
  destruct (searchsorted_split (np.sort data) b np.left Hs) as [Hblo Hbhi].
  fold lo in Halo, Hahi. fold hi in Hblo, Hbhi.
  assert (Hband : List.filter p (np.sort data)
                  = map (fun i => nth i (np.sort data) 0%Q) (Empirical.range lo hi)).
  { apply filter_band.
    - apply searchsorted_le_length.
    - intros i Hi1 _. unfold p. specialize (Halo i Hi1). simpl in Halo.
      apply Qle_bool_iff in Halo.
      destruct (Qlt_bool a _) eqn:E; [|reflexivity].
      apply Qlt_bool_iff in E. lra.
    - intros i [Hi1 Hi2]. unfold p.
      assert (Hlen : hi <= length (np.sort data)) by apply searchsorted_le_length.
      specialize (Hahi i ltac:(lia)). specialize (Hblo i Hi2). simpl in Hahi, Hblo.
      apply Qle_bool_false_iff, Qlt_bool_iff in Hahi. now rewrite Hahi, Hblo.
    - intros i Hi1. unfold p. specialize (Hbhi i Hi1). simpl in Hbhi.
      rewrite Hbhi. apply andb_false_r. }
  destruct (conditional_mean_loop (np.sort data) (Empirical.range lo hi) 0 0)
    as (m & n & Hf & Hm & Hn).
  rewrite Hf. rewrite <- Hband in Hm.
  assert (Hn' : (n == Qnat (length (List.filter p (np.sort data))))%Q).
  { rewrite Hn, Hband, length_map. ring. }
  pose proof (filter_Permutation_Q p _ _ (sort_Permutation data)) as Hperm.
  unfold open_mean. fold p.
  destruct (List.filter p data) as [|v vs] eqn:Ed.
  - apply Permutation_nil in Hperm. rewrite Hperm in Hn'. simpl in Hn'.
    destruct (Qlt_bool 0 n) eqn:E; [|exact I].
    apply Qlt_bool_iff in E. rewrite Hn', Qnat_0 in E. lra.
  - assert (Hlen : length (List.filter p (np.sort data)) = length (v :: vs))
      by (symmetry; now apply Permutation_length).
    rewrite Hlen in Hn'.
    assert (Hpos : (0 < Qnat (length (v :: vs)))%Q) by (apply Qnat_pos; simpl; lia).
    destruct (Qlt_bool 0 n) eqn:E.
    + cbn [ereal_eq]. rewrite Hm, Hn'.
      rewrite <- (total_mass_Permutation _ _ Hperm). unfold Qdiv. ring.
    + exfalso. unfold Qlt_bool in E. apply negb_false_iff, Qle_bool_iff in E.
      rewrite Hn' in E. lra.
Qed.

(** [conditional_mean(a, b)] is the mean of the stored values strictly
    between [a] and [b] (values equal to either end are left out), and
    [+infinity] when there is none. *)
Theorem conditional_mean_is_open_mean (h : heap) (x0 : loc) (data : list Q) (a b : Q) :
  h !! x0 = Some data ->
  exists h' e,
    Empirical.__init__ h x0 = Ok (h', e) /\
    ereal_eq (Empirical.conditional_mean h' e a b) (open_mean data a b).
Proof.
  intros Hx. destruct (init_ok h x0 data Hx) as (h' & e & Hi & _).
  exists h', e. split; [exact Hi|].
  exact (conditional_mean_open_mean h h' x0 data e a b Hx Hi).
Qed.

Lemma conditional_mean_is_open_mean_witness :
  exists h' e,
    Empirical.__init__ (heap_of [15; 5; 10; 12]%Q) 1%positive = Ok (h', e) /\
    ereal_eq (Empirical.conditional_mean h' e 5 15)
      (open_mean [15; 5; 10; 12]%Q 5 15).
Proof.
  apply (conditional_mean_is_open_mean (heap_of [15; 5; 10; 12]%Q) 1%positive).
  reflexivity.
Defined.

(** The sum of values strictly between [a] and [b] lies strictly between
    their number times [a] and times [b]. *)
Lemma total_mass_between (a b : Q) (l : list Q) :
  Forall (fun v => (a < v < b)%Q) l -> l <> [] ->
  (Qnat (length l) * a < total_mass l < Qnat (length l) * b)%Q.
Proof.
  induction 1 as [|v l Hv Hl IH]; intros Hne; [congruence|].
  cbn [length total_mass fold_right]. rewrite Qnat_S.
  destruct l as [|v' l].
  - simpl. rewrite Qnat_0. lra.
  - specialize (IH ltac:(discriminate)). fold (total_mass (v' :: l)). lra.
Qed.

Lemma open_mean_cases (data : list Q) (a b : Q) :
  (open_mean data a b = PosInf /\ forall v, In v data -> ~ (a < v < b)%Q) \/
  (exists m, open_mean data a b = Finite m /\ (a < m < b)%Q /\
             exists v, In v data /\ (a < v < b)%Q).
Proof.
  unfold open_mean.
  set (p := fun v => Qlt_bool a v && Qlt_bool v b).
  assert (Hp : forall v, p v = true <-> (a < v < b)%Q).
  { intros v. unfold p. now rewrite andb_true_iff, !Qlt_bool_iff. }
  destruct (List.filter p data) as [|v vs] eqn:E.
  - left. split; [reflexivity|]. intros v Hv Hab.
    assert (Hin : In v (List.filter p data)) by (apply List.filter_In; split; [exact Hv | now apply Hp]).
    rewrite E in Hin. contradiction.
  - right. eexists. split; [reflexivity|].
    assert (Hall : Forall (fun v => (a < v < b)%Q) (v :: vs)).
    { rewrite <- E. apply List.Forall_forall. intros u Hu.
      apply List.filter_In in Hu. now apply Hp. }
    split.
    + pose proof (total_mass_between a b (v :: vs) Hall ltac:(discriminate)) as [H1 H2].
      assert (Hpos : (0 < Qnat (length (v :: vs)))%Q) by (apply Qnat_pos; simpl; lia).
      split.
      * apply Qlt_shift_div_l; [exact Hpos | lra].
      * apply Qlt_shift_div_r; [exact Hpos | lra].
    + exists v. assert (Hin : In v (List.filter p data)) by (rewrite E; now left).
      apply List.filter_In in Hin. split; [tauto | now apply Hp].
Qed.

(** A finite [conditional_mean(a, b)] lies strictly between [a] and [b];
    the result is [+infinity] exactly when no stored value lies strictly
    between them, in particular whenever [b <= a]. *)
Theorem conditional_mean_inside_interval (h : heap) (x0 : loc) (data : list Q) (a b : Q) :
  h !! x0 = Some data ->
  exists h' e,
    Empirical.__init__ h x0 = Ok (h', e) /\
    (forall m, Empirical.conditional_mean h' e a b = Finite m -> (a < m < b)%Q) /\
    (Empirical.conditional_mean h' e a b = PosInf <->
     forall v, In v data -> ~ (a < v < b)%Q) /\
    ((b <= a)%Q -> Empirical.conditional_mean h' e a b = PosInf).
Proof.
  intros Hx. destruct (init_ok h x0 data Hx) as (h' & e & Hi & _).
  exists h', e. split; [exact Hi|].
  pose proof (conditional_mean_open_mean h h' x0 data e a b Hx Hi) as Heq.
  assert (Hinf : Empirical.conditional_mean h' e a b = PosInf <->
                 forall v, In v data -> ~ (a < v < b)%Q).
  { destruct (open_mean_cases data a b) as [[Ho Hnone]|(m & Ho & _ & v & Hv & Hab)];
      rewrite Ho in Heq;
      destruct (Empirical.conditional_mean h' e a b) as [m'|]; try contradiction.
    - split; [intros _; exact Hnone | reflexivity].
    - split; [discriminate|]. intros Hnone. exfalso. exact (Hnone v Hv Hab). }
  split; [|split; [exact Hinf|]].
  - intros m Hm. rewrite Hm in Heq.
    destruct (open_mean_cases data a b) as [[Ho _]|(m' & Ho & Hm' & _)];
      rewrite Ho in Heq; simpl in Heq; [contradiction|].
    rewrite Heq. exact Hm'.
  - intros Hba. apply Hinf. intros v _ Hab. lra.
Qed.

Lemma conditional_mean_inside_interval_witness :
  exists h' e,
    Empirical.__init__ (heap_of [15; 5; 10; 12]%Q) 1%positive = Ok (h', e) /\
    (forall m, Empirical.conditional_mean h' e 5 15 = Finite m -> (5 < m < 15)%Q) /\
    (Empirical.conditional_mean h' e 5 15 = PosInf <->
     forall v, In v [15; 5; 10; 12]%Q -> ~ (5 < v < 15)%Q) /\
    ((15 <= 5)%Q -> Empirical.conditional_mean h' e 5 15 = PosInf).
Proof.
  apply (conditional_mean_inside_interval (heap_of [15; 5; 10; 12]%Q) 1%positive).
  reflexivity.
Defined.

(** ** sample: which indices it returns *)

Lemma total_mass_nonneg (w : list Q) :
  Forall (fun wi => (0 <= wi)%Q) w -> (0 <= total_mass w)%Q.
Proof. induction 1 as [|a w Ha Hw IH]; simpl; lra. Qed.

(** With [u] supplied, [sample] is one search in the cumulative sums. *)
Lemma sample_supplied (w : list Q) (size : option nat) (u : Q)
    (g : np.RandomState) (total : Q) :
  last (np.cumsum w) = Some total ->
  sample w size (Some (Scalar u)) g
    = Ok (Scalar (np.searchsorted (np.cumsum w) (u * total)%Q np.left), g).
Proof. intros Hlast. unfold sample, last_item. cbn. rewrite Hlast. reflexivity. Qed.

Lemma cumsum_nonempty (w : list Q) : w <> [] -> np.cumsum w <> [].
Proof. destruct w; [congruence | discriminate]. Qed.

(** Each cumulative sum is the one before plus the weight at its index. *)
Lemma cumsum_from_step (acc : Q) (w : list Q) (j : nat) :
  S j < length w ->
  (nth (S j) (np.cumsum_from acc w) 0
     == nth j (np.cumsum_from acc w) 0 + nth (S j) w 0)%Q.
Proof.
  revert acc j. induction w as [|a w IH]; intros acc j Hj; simpl in Hj; [lia|].
  cbn [np.cumsum_from nth]. destruct j as [|j].
  - destruct w as [|b w]; simpl in *; [lia | reflexivity].
  - apply IH. lia.
Qed.

Lemma cumsum_from_head (acc : Q) (w : list Q) :
  w <> [] -> (nth 0 (np.cumsum_from acc w) 0 == acc + nth 0 w 0)%Q.
Proof. destruct w; [congruence | reflexivity]. Qed.

Lemma sample_positive_weight (w : list Q) (size : option nat)
    (u : Q) (g : np.RandomState) :
  Forall (fun wi => (0 <= wi)%Q) w -> (0 < total_mass w)%Q -> (0 < u < 1)%Q ->
  exists i,
    sample w size (Some (Scalar u)) g = Ok (Scalar i, g) /\
    i < length w /\ (0 < nth i w 0)%Q.
Proof.
  intros Hw Hmass [Hu0 Hu1].
  assert (Hne : w <> []) by (intros ->; simpl in Hmass; lra).
  destruct (cumsum_from_last 0 w Hne) as (total & Hlast & Hnth & Htot).
  fold (np.cumsum w) in Hlast, Hnth.
  assert (Htot' : (total == total_mass w)%Q) by (rewrite Htot; lra).
  assert (Hlen : length (np.cumsum w) = length w) by apply cumsum_from_length.
  destruct (searchsorted_left_least (np.cumsum w) (u * total)%Q) as (Hi & Hge & Hlt).
  - now apply cumsum_from_sorted.
  - now apply cumsum_nonempty.
  - rewrite Hlen, Hnth, Htot'. nra.
  - set (i := np.searchsorted (np.cumsum w) (u * total)%Q np.left) in *.
    exists i. split; [now apply sample_supplied|]. split; [lia|].
    assert (Hv : (0 < u * total)%Q) by (rewrite Htot'; nra).
    destruct i as [|j].
    + pose proof (cumsum_from_head 0 w Hne) as H0. fold (np.cumsum w) in H0. lra.
    + pose proof (cumsum_from_step 0 w j ltac:(lia)) as HS.
      fold (np.cumsum w) in HS. specialize (Hlt j ltac:(lia)). lra.
Qed.







Lemma sample_scale_any (k : Q) (w w' : list Q) (size : option nat)
    (uo : option (nd Q)) (g : np.RandomState) :
  (0 < k)%Q -> Forall2 (fun x y => (x == k * y)%Q) w w' ->
  sample w size uo g = sample w' size uo g.
Proof.
  intros Hk Hw.
  assert (Hc : Forall2 (fun x y => (x == k * y)%Q) (np.cumsum w) (np.cumsum w')).
  { apply cumsum_from_scale; [ring | exact Hw]. }
  pose proof (Forall2_last_Q _ _ _ Hc) as Hlast.
  assert (Hlen : length (np.cumsum w) = length (np.cumsum w'))
    by (eapply Forall2_length; exact Hc).
  unfold sample, last_item.
  destruct (match uo with
            | Some u0 => Ok (u0, g)
            | None => _ ← assert (match size with Some _ => false | None => true end);
                      Ok (np.uniform 0 1 size g)
            end) as [[u1 g1]|ex]; cbn; [|reflexivity].
  destruct (last (np.cumsum w)) as [t|], (last (np.cumsum w')) as [t'|];
    try contradiction; [|reflexivity].
  cbn. do 2 f_equal. apply nd_map_ext. intros ui.
  unfold np.searchsorted. rewrite <- Hlen.
  apply binsearch_ext; [lia|].
  intros i Hi. apply (above_scale _ k).
  - exact Hk.
  - rewrite Hlast. ring.
  - now apply (Forall2_nth_Q _ _ _ i Hc).
Qed.



(** ** is_distribution *)

Lemma fold_left_Qplus (l : list Q) (acc : Q) :
  (fold_left Qplus l acc == acc + total_mass l)%Q.
Proof.
  revert acc. induction l as [|a l IH]; intros acc; simpl; [ring|].
  rewrite IH. ring.
Qed.

Lemma array_sum_total_mass (p : list Q) : (array_sum p == total_mass p)%Q.
Proof. unfold array_sum. rewrite fold_left_Qplus. ring. Qed.

Lemma entry_le_total_mass (w : list Q) (x : Q) :
  Forall (fun wi => (0 <= wi)%Q) w -> In x w -> (x <= total_mass w)%Q.
Proof.
  induction 1 as [|a w Ha Hw IH]; intros Hin; [contradiction|].
  pose proof (total_mass_nonneg w Hw) as Ht. simpl.
  destruct Hin as [<-|Hin]; [lra|]. specialize (IH Hin). lra.
Qed.

Lemma is_distribution_spec (p : list Q) :
  is_distribution p = true <->
  Forall (fun pi => (0 <= pi)%Q) p /\
  (Qabs (1 - total_mass p) < 1 # 10000000000)%Q.
Proof.
  unfold is_distribution. rewrite andb_true_iff, Qlt_bool_iff, array_sum_total_mass.
  assert (Hall : forallb (fun pi => Qle_bool 0 pi) p = true
                 <-> Forall (fun pi => (0 <= pi)%Q) p).
  { rewrite List.forallb_forall, List.Forall_forall.
    split; intros H x Hx; apply Qle_bool_iff, H, Hx. }
  now rewrite Hall.
Qed.

(** What passes [is_distribution] is not empty, has every entry in
    [0, 1 + 1e-10) and a sum within 1e-10 of 1. *)
Theorem is_distribution_bounds (p : list Q) :
  is_distribution p = true ->
  p <> [] /\
  Forall (fun pi => (0 <= pi < 1 + (1 # 10000000000))%Q) p /\
  (1 - (1 # 10000000000) < total_mass p < 1 + (1 # 10000000000))%Q.
Proof.
  intros H. apply is_distribution_spec in H as [Hnn Habs].
  apply Qabs_Qlt_condition in Habs.
  assert (Htot : (1 - (1 # 10000000000) < total_mass p < 1 + (1 # 10000000000))%Q)
    by lra.
  split; [|split; [|exact Htot]].
  - intros ->. simpl in Htot. destruct Htot as [Hlo _].
    revert Hlo. apply Qle_not_lt. discriminate.
  - apply List.Forall_forall. intros x Hx. split.
    + rewrite List.Forall_forall in Hnn. now apply Hnn.
    + pose proof (entry_le_total_mass p x Hnn Hx). lra.
Qed.

Lemma is_distribution_bounds_witness :
  [1 # 5; 3 # 10; 1 # 2]%Q <> [] /\
  Forall (fun pi => (0 <= pi < 1 + (1 # 10000000000))%Q) [1 # 5; 3 # 10; 1 # 2]%Q /\
  (1 - (1 # 10000000000) < total_mass [1 # 5; 3 # 10; 1 # 2]
     < 1 + (1 # 10000000000))%Q.
Proof.
  apply (is_distribution_bounds [1 # 5; 3 # 10; 1 # 2]%Q).
  reflexivity.
Defined.

(** A vector that passes [is_distribution] meets what [sample] needs:
    for every draw in (0, 1) [sample] returns an index inside the vector,
    of positive weight. *)
Theorem is_distribution_sample_in_range (w : list Q) (u : Q) (g : np.RandomState) :
  is_distribution w = true -> (0 < u < 1)%Q ->
  exists i,
    sample w None (Some (Scalar u)) g = Ok (Scalar i, g) /\
    i < length w /\ (0 < nth i w 0)%Q.
Proof.
  intros H Hu. apply is_distribution_spec in H as [Hnn Habs].
  apply Qabs_Qlt_condition in Habs.
  apply sample_positive_weight; [exact Hnn | lra | exact Hu].
Qed.

Lemma is_distribution_sample_in_range_witness :
  exists i,
    sample [1 # 5; 3 # 10; 1 # 2]%Q None (Some (Scalar (1 # 2)%Q)) half_stream
      = Ok (Scalar i, half_stream) /\
    i < length [1 # 5; 3 # 10; 1 # 2]%Q /\ (0 < nth i [1 # 5; 3 # 10; 1 # 2] 0)%Q.
Proof.
  apply (is_distribution_sample_in_range [1 # 5; 3 # 10; 1 # 2]%Q (1 # 2)%Q half_stream).
  - reflexivity.
  - split; reflexivity.
Defined.

(** ** Mixture *)

(** [Mixture] accepts the weight vectors that pass [is_distribution],
    and [rvs] of such a mixture never returns a sample: with an integer
    [size] (the default is 1) the call of [sample] fails its assertion,
    and with [size=None] the scalar index cannot be iterated. *)
Theorem mixture_rvs_never_returns (w0 : list Q) (pdfs0 : list Component) :
  is_distribution w0 = true ->
  exists m,
    Mixture.__init__ w0 pdfs0 = Ok m /\
    (forall k g, Mixture.rvs m (Some k) g = Throw (Exn AssertionError)) /\
    (forall g, Mixture.rvs m None g = Throw TypeError).
Proof.
  intros Hd. unfold Mixture.__init__. rewrite Hd. cbn.
  eexists. split; [reflexivity|]. split.
  - intros k g. reflexivity.
  - intros g. unfold Mixture.rvs. cbn [Mixture.w Mixture.pdfs].
    apply is_distribution_spec in Hd as [Hnn Habs].
    apply Qabs_Qlt_condition in Habs.
    assert (Hne : w0 <> []) by (intros ->; simpl in Habs; destruct Habs as [_ H];
                                 revert H; apply Qle_not_lt; discriminate).
    destruct (cumsum_from_last 0 w0 Hne) as (total & Hlast & _).
    fold (np.cumsum w0) in Hlast.
    unfold sample, last_item. cbn. rewrite Hlast. reflexivity.
Qed.

Lemma mixture_rvs_never_returns_witness :
  exists m,
    Mixture.__init__ [1 # 2; 1 # 2]%Q [unit_component; unit_component] = Ok m /\
    (forall k g, Mixture.rvs m (Some k) g = Throw (Exn AssertionError)) /\
    (forall g, Mixture.rvs m None g = Throw TypeError).
Proof.
  apply (mixture_rvs_never_returns [1 # 2; 1 # 2]%Q [unit_component; unit_component]).
  reflexivity.
Defined.

Lemma weighted_sum_bounds (x lo hi : Q) (ws : list Q) (cs : list Component) :
  length cs = length ws ->
  Forall (fun wi => (0 <= wi)%Q) ws ->
  Forall (fun c => (lo <= c_pdf c x <= hi)%Q) cs ->
  (lo * total_mass ws
     <= total_mass (map (fun '(wi, p) => (c_pdf p x * wi)%Q) (combine ws cs))
     <= hi * total_mass ws)%Q.
Proof.
  intros Hlen Hws. revert cs Hlen.
  induction Hws as [|wi ws Hwi Hws IH]; intros cs Hlen Hcs.
  - simpl. lra.
  - destruct cs as [|c cs]; [discriminate|].
    inversion Hcs as [|? ? Hc Hcs']; subst.
    specialize (IH cs ltac:(simpl in Hlen; lia) Hcs'). simpl. nra.
Qed.

(** The density of a mixture with as many components as weights is a
    weighted combination of the component densities: where these lie in
    [lo, hi], it lies between [lo] and [hi] times the total weight, which
    is within 1e-10 of 1. *)
Theorem mixture_pdf_bounds (w0 : list Q) (pdfs0 : list Component) (x lo hi : Q) :
  is_distribution w0 = true -> length pdfs0 = length w0 ->
  Forall (fun c => (lo <= c_pdf c x <= hi)%Q) pdfs0 ->
  exists m,
    Mixture.__init__ w0 pdfs0 = Ok m /\
    (lo * total_mass w0 <= Mixture.pdf m x <= hi * total_mass w0)%Q /\
    (1 - (1 # 10000000000) < total_mass w0 < 1 + (1 # 10000000000))%Q.
Proof.
  intros Hd Hlen Hcs. unfold Mixture.__init__. rewrite Hd. cbn.
  eexists. split; [reflexivity|].
  pose proof (is_distribution_spec w0) as [Hspec _].
  destruct (Hspec Hd) as [Hnn Habs]. apply Qabs_Qlt_condition in Habs.
  split; [|lra].
  unfold Mixture.pdf. cbn [Mixture.w Mixture.pdfs].
  rewrite array_sum_total_mass. now apply weighted_sum_bounds.
Qed.

Lemma mixture_pdf_bounds_witness :
  exists m,
    Mixture.__init__ [1 # 2; 1 # 2]%Q [unit_component; unit_component] = Ok m /\
    (1 * total_mass [1 # 2; 1 # 2] <= Mixture.pdf m (1 # 3)
       <= 1 * total_mass [1 # 2; 1 # 2])%Q /\
    (1 - (1 # 10000000000) < total_mass [1 # 2; 1 # 2] < 1 + (1 # 10000000000))%Q.
Proof.
  apply (mixture_pdf_bounds [1 # 2; 1 # 2]%Q [unit_component; unit_component]
           (1 # 3) 1 1).
  - reflexivity.
  - reflexivity.
  - repeat constructor; discriminate.
Defined.

(** ** anneal *)

Lemma total_mass_div (s : Q) (l : list Q) :
  (total_mass (map (fun pi => pi / s) l) == total_mass l / s)%Q.
Proof.
  induction l as [|a l IH]; simpl.
  - unfold Qdiv. ring.
  - rewrite IH. unfold Qdiv. ring.
Qed.



(** ** TruncatedDistribution: shape of cdf, sf and pdf *)

Lemma ratio_le (w x y : Q) : (0 < w)%Q -> (x <= y)%Q -> (x / w <= y / w)%Q.
Proof.
  intros Hw Hxy. unfold Qdiv. apply Qmult_le_compat_r; [exact Hxy|].
  apply Qlt_le_weak. now apply Qinv_lt_0_compat.
Qed.

Section TruncatedShape.

Variable d0 : Distribution.
Variables a0 b0 : Q.
Hypothesis cdf_mono : forall x y, (x <= y)%Q -> (d_cdf d0 x <= d_cdf d0 y)%Q.
Hypothesis a_le_b : (a0 <= b0)%Q.
Hypothesis mass_pos : (0 < d_cdf d0 b0 - d_cdf d0 a0)%Q.

Local Abbreviation t := (TruncatedDistribution.attributes d0 a0 b0).
Local Abbreviation ratio x :=
  ((d_cdf d0 x - d_cdf d0 a0) / (d_cdf d0 b0 - d_cdf d0 a0))%Q.

Lemma truncated_cdf_above (x : Q) :
  (a0 <= x)%Q -> (TruncatedDistribution.cdf t x == Qmin 1 (ratio x))%Q.
Proof. intros Hx. now apply (truncated_cdf_cases t x). Qed.

Lemma truncated_cdf_below (x : Q) :
  (x < a0)%Q -> (TruncatedDistribution.cdf t x == 0)%Q.
Proof. intros Hx. now apply (truncated_cdf_cases t x). Qed.

Lemma truncated_cdf_unit (x : Q) : (0 <= TruncatedDistribution.cdf t x <= 1)%Q.
Proof.
  destruct (Qlt_le_dec x a0) as [Hlt|Hge].
  - rewrite truncated_cdf_below by exact Hlt. lra.
  - rewrite truncated_cdf_above by exact Hge. split; [|apply Q.le_min_l].
    apply Q.min_glb; [lra|].
    apply Qle_shift_div_l; [exact mass_pos|]. pose proof (cdf_mono a0 x Hge). lra.
Qed.

Lemma truncated_cdf_mono (x y : Q) :
  (x <= y)%Q -> (TruncatedDistribution.cdf t x <= TruncatedDistribution.cdf t y)%Q.
Proof.
  intros Hxy. destruct (Qlt_le_dec x a0) as [Hlt|Hge].
  - rewrite (truncated_cdf_below x) by exact Hlt. apply truncated_cdf_unit.
  - rewrite !truncated_cdf_above by lra.
    apply Q.min_le_compat_l. apply ratio_le; [exact mass_pos|].
    pose proof (cdf_mono x y Hxy). lra.
Qed.

Lemma truncated_cdf_top (x : Q) :
  (b0 <= x)%Q -> (TruncatedDistribution.cdf t x == 1)%Q.
Proof.
  intros Hx. rewrite truncated_cdf_above by lra. apply Q.min_l.
  apply Qle_shift_div_l; [exact mass_pos|]. pose proof (cdf_mono b0 x Hx). lra.
Qed.

(** For a base distribution with a non-decreasing cdf, the truncated cdf
    is non-decreasing, stays in [0, 1], is 0 below [a] and 1 from [b]
    on. *)
Theorem truncated_cdf_shape :
  exists t',
    TruncatedDistribution.__init__ d0 a0 b0 = Ok t' /\
    (forall x y, (x <= y)%Q ->
       (TruncatedDistribution.cdf t' x <= TruncatedDistribution.cdf t' y)%Q) /\
    (forall x, (0 <= TruncatedDistribution.cdf t' x <= 1)%Q) /\
    (forall x, (x < a0)%Q -> (TruncatedDistribution.cdf t' x == 0)%Q) /\
    (forall x, (b0 <= x)%Q -> (TruncatedDistribution.cdf t' x == 1)%Q).
Proof.
  exists t. split; [now apply truncated_init_ok|].
  split; [exact truncated_cdf_mono|]. split; [exact truncated_cdf_unit|].
  split; [exact truncated_cdf_below | exact truncated_cdf_top].
Qed.

(** The survival function is the complement of the cdf: non-increasing,
    in [0, 1], 1 below [a] and 0 from [b] on. *)
Theorem truncated_sf_shape :
  exists t',
    TruncatedDistribution.__init__ d0 a0 b0 = Ok t' /\
    (forall x y, (x <= y)%Q ->
       (TruncatedDistribution.sf t' y <= TruncatedDistribution.sf t' x)%Q) /\
    (forall x, (0 <= TruncatedDistribution.sf t' x <= 1)%Q) /\
    (forall x, (x < a0)%Q -> (TruncatedDistribution.sf t' x == 1)%Q) /\
    (forall x, (b0 <= x)%Q -> (TruncatedDistribution.sf t' x == 0)%Q).
Proof.
  exists t. split; [now apply truncated_init_ok|].
  unfold TruncatedDistribution.sf. split; [|split; [|split]].
  - intros x y Hxy. pose proof (truncated_cdf_mono x y Hxy). lra.
  - intros x. pose proof (truncated_cdf_unit x). lra.
  - intros x Hx. rewrite truncated_cdf_below by exact Hx. ring.
  - intros x Hx. rewrite truncated_cdf_top by exact Hx. ring.
Qed.

(** The truncated density vanishes outside [a, b], is the base density
    divided by the truncation mass inside, and is non-negative wherever
    the base density is. *)
Theorem truncated_pdf_support :
  exists t',
    TruncatedDistribution.__init__ d0 a0 b0 = Ok t' /\
    (forall x, (x < a0)%Q \/ (b0 < x)%Q -> (TruncatedDistribution.pdf t' x == 0)%Q) /\
    (forall x, (a0 <= x <= b0)%Q ->
       (TruncatedDistribution.pdf t' x
          == d_pdf d0 x / TruncatedDistribution.cdf_w t')%Q) /\
    (forall x, (0 <= d_pdf d0 x)%Q -> (0 <= TruncatedDistribution.pdf t' x)%Q).
Proof.
  exists t. split; [now apply truncated_init_ok|].
  assert (Hinv : (0 < / (d_cdf d0 b0 - d_cdf d0 a0))%Q)
    by now apply Qinv_lt_0_compat.
  unfold TruncatedDistribution.pdf, TruncatedDistribution.ind.
  cbn [TruncatedDistribution.d TruncatedDistribution.a TruncatedDistribution.b
       TruncatedDistribution.cdf_w TruncatedDistribution.attributes].
  unfold Qdiv. split; [|split].
  - intros x [Hx|Hx]; case_Qle a0 x; case_Qle x b0; first [ring | lra].
  - intros x Hx. case_Qle a0 x; case_Qle x b0; first [ring | lra].
  - intros x Hx. case_Qle a0 x; case_Qle x b0; nra.
Qed.

End TruncatedShape.

Lemma truncated_cdf_shape_witness :
  exists t',
    TruncatedDistribution.__init__ uniform01 (1 # 4) (3 # 4) = Ok t' /\
    (forall x y, (x <= y)%Q ->
       (TruncatedDistribution.cdf t' x <= TruncatedDistribution.cdf t' y)%Q) /\
    (forall x, (0 <= TruncatedDistribution.cdf t' x <= 1)%Q) /\
    (forall x, (x < 1 # 4)%Q -> (TruncatedDistribution.cdf t' x == 0)%Q) /\
    (forall x, (3 # 4 <= x)%Q -> (TruncatedDistribution.cdf t' x == 1)%Q).
Proof.
  apply (truncated_cdf_shape uniform01).
  - exact uniform01_cdf_mono.
  - discriminate.
  - reflexivity.
Defined.

Lemma truncated_sf_shape_witness :
  exists t',
    TruncatedDistribution.__init__ uniform01 (1 # 4) (3 # 4) = Ok t' /\
    (forall x y, (x <= y)%Q ->
       (TruncatedDistribution.sf t' y <= TruncatedDistribution.sf t' x)%Q) /\
    (forall x, (0 <= TruncatedDistribution.sf t' x <= 1)%Q) /\
    (forall x, (x < 1 # 4)%Q -> (TruncatedDistribution.sf t' x == 1)%Q) /\
    (forall x, (3 # 4 <= x)%Q -> (TruncatedDistribution.sf t' x == 0)%Q).
Proof.
  apply (truncated_sf_shape uniform01).
  - exact uniform01_cdf_mono.
  - discriminate.
  - reflexivity.
Defined.

Lemma truncated_pdf_support_witness :
  exists t',
    TruncatedDistribution.__init__ uniform01 (1 # 4) (3 # 4) = Ok t' /\
    (forall x, (x < 1 # 4)%Q \/ (3 # 4 < x)%Q ->
       (TruncatedDistribution.pdf t' x == 0)%Q) /\
    (forall x, (1 # 4 <= x <= 3 # 4)%Q ->
       (TruncatedDistribution.pdf t' x
          == d_pdf uniform01 x / TruncatedDistribution.cdf_w t')%Q) /\
    (forall x, (0 <= d_pdf uniform01 x)%Q -> (0 <= TruncatedDistribution.pdf t' x)%Q).
Proof.
  apply (truncated_pdf_support uniform01).
  - discriminate.
  - reflexivity.
Defined.

(** ** TruncatedDistribution: quantiles and samples stay in the interval *)

(** What a batch of draws is: as many values as asked for, each an output
    of the stream, and a generator advanced by that many. *)
Lemma random_samples_spec (k : nat) (g : np.RandomState) :
  length (fst (np.random_samples k g)) = k /\
  Forall (fun r => exists j, r = np.stream g j) (fst (np.random_samples k g)) /\
  np.stream (snd (np.random_samples k g)) = np.stream g /\
  np.pos (snd (np.random_samples k g)) = np.pos g + k.
Proof.
  revert g. induction k as [|k IH]; intros g; cbn [np.random_samples].
  - simpl. repeat split; [constructor | lia].
  - unfold np.random_sample.
    specialize (IH {| np.stream := np.stream g; np.pos := S (np.pos g) |}).
    destruct (np.random_samples k _) as [rs g2]. cbn [fst snd] in *.
    destruct IH as (Hlen & Hall & Hst & Hpos). cbn in Hall, Hst, Hpos.
    repeat split.
    + simpl. lia.
    + constructor; [now exists (np.pos g) | exact Hall].
    + exact Hst.
    + lia.
Qed.

Section TruncatedQuantile.

Variable d0 : Distribution.
Variables a0 b0 : Q.
Hypothesis cdf_mono : forall x y, (x <= y)%Q -> (d_cdf d0 x <= d_cdf d0 y)%Q.
Hypothesis ppf_mono : forall p p', (p <= p')%Q -> (d_ppf d0 p <= d_ppf d0 p')%Q.
Hypothesis ppf_cdf_a : (d_ppf d0 (d_cdf d0 a0) == a0)%Q.
Hypothesis ppf_cdf_b : (d_ppf d0 (d_cdf d0 b0) == b0)%Q.
Hypothesis a_le_b : (a0 <= b0)%Q.

Local Abbreviation t := (TruncatedDistribution.attributes d0 a0 b0).

Lemma truncated_ppf_mono (u u' : Q) :
  (u <= u')%Q -> (TruncatedDistribution.ppf t u <= TruncatedDistribution.ppf t u')%Q.
Proof.
  intros Hu. unfold TruncatedDistribution.ppf.
  cbn [TruncatedDistribution.d TruncatedDistribution.cdf_a
       TruncatedDistribution.cdf_w TruncatedDistribution.attributes].
  apply ppf_mono. pose proof (cdf_mono a0 b0 a_le_b). nra.
Qed.

Lemma truncated_ppf_ends :
  (TruncatedDistribution.ppf t 0 == a0)%Q /\ (TruncatedDistribution.ppf t 1 == b0)%Q.
Proof.
  unfold TruncatedDistribution.ppf.
  cbn [TruncatedDistribution.d TruncatedDistribution.cdf_a
       TruncatedDistribution.cdf_w TruncatedDistribution.attributes].
  split.
  - eapply Qeq_trans; [|exact ppf_cdf_a]. apply Qle_antisym; apply ppf_mono; lra.
  - eapply Qeq_trans; [|exact ppf_cdf_b]. apply Qle_antisym; apply ppf_mono; lra.
Qed.

Lemma truncated_ppf_range (u : Q) :
  (0 <= u <= 1)%Q -> (a0 <= TruncatedDistribution.ppf t u <= b0)%Q.
Proof.
  intros [Hu0 Hu1]. destruct truncated_ppf_ends as [Ha Hb].
  pose proof (truncated_ppf_mono 0 u Hu0). pose proof (truncated_ppf_mono u 1 Hu1).
  lra.
Qed.

(** For a base distribution with non-decreasing cdf and ppf whose ppf
    returns [a] and [b] at their cdf values, the truncated quantile is
    non-decreasing, is [a] at 0 and [b] at 1, and maps [0, 1] into
    [a, b]. *)
Theorem truncated_ppf_shape :
  exists t',
    TruncatedDistribution.__init__ d0 a0 b0 = Ok t' /\
    (forall u u', (u <= u')%Q ->
       (TruncatedDistribution.ppf t' u <= TruncatedDistribution.ppf t' u')%Q) /\
    (TruncatedDistribution.ppf t' 0 == a0)%Q /\
    (TruncatedDistribution.ppf t' 1 == b0)%Q /\
    (forall u, (0 <= u <= 1)%Q -> (a0 <= TruncatedDistribution.ppf t' u <= b0)%Q).
Proof.
  exists t. split; [now apply truncated_init_ok|].
  split; [exact truncated_ppf_mono|].
  split; [apply truncated_ppf_ends|]. split; [apply truncated_ppf_ends|].
  exact truncated_ppf_range.
Qed.

(** [rvs] maps the generator's next outputs through [ppf]: it returns a
    scalar for [size=None] and [size] values otherwise, all inside
    [a, b], and leaves the generator advanced by the number of draws. *)
Theorem truncated_rvs_in_interval (size : option nat) (g : np.RandomState) :
  (forall j, (0 <= np.stream g j <= 1)%Q) ->
  exists t' xs g',
    TruncatedDistribution.__init__ d0 a0 b0 = Ok t' /\
    TruncatedDistribution.rvs t' size g = (xs, g') /\
    nd_Forall (fun x => (a0 <= x <= b0)%Q) xs /\
    match size with
    | None => exists x, xs = Scalar x
    | Some k => exists l, xs = Array l /\ length l = k
    end /\
    np.stream g' = np.stream g /\
    np.pos g' = np.pos g + match size with None => 1 | Some k => k end.
Proof.
  intros Hg. exists t.
  assert (Hscale : forall r, (0 <= r <= 1)%Q ->
            (a0 <= TruncatedDistribution.ppf t (0 + (1 - 0) * r) <= b0)%Q).
  { intros r Hr. apply truncated_ppf_range. lra. }
  unfold TruncatedDistribution.rvs, np.uniform. destruct size as [k|].
  - pose proof (random_samples_spec k g) as (Hlen & Hall & Hst & Hpos).
    destruct (np.random_samples k g) as [rs g2]. cbn [fst snd] in *.
    eexists _, _. split; [now apply truncated_init_ok|].
    split; [reflexivity|]. split; [|split; [|split]].
    + cbn [nd_map nd_Forall]. rewrite !List.Forall_map.
      eapply List.Forall_impl; [|exact Hall].
      intros r [j ->]. apply Hscale, Hg.
    + eexists. split; [reflexivity|]. now rewrite !length_map.
    + exact Hst.
    + exact Hpos.
  - eexists _, _. split; [now apply truncated_init_ok|].
    cbn. split; [reflexivity|]. split; [apply Hscale, Hg|].
    split; [eexists; reflexivity|]. split; [reflexivity | simpl; lia].
Qed.

End TruncatedQuantile.

Lemma truncated_ppf_shape_witness :
  exists t',
    TruncatedDistribution.__init__ uniform01 (1 # 4) (3 # 4) = Ok t' /\
    (forall u u', (u <= u')%Q ->
       (TruncatedDistribution.ppf t' u <= TruncatedDistribution.ppf t' u')%Q) /\
    (TruncatedDistribution.ppf t' 0 == 1 # 4)%Q /\
    (TruncatedDistribution.ppf t' 1 == 3 # 4)%Q /\
    (forall u, (0 <= u <= 1)%Q ->
       (1 # 4 <= TruncatedDistribution.ppf t' u <= 3 # 4)%Q).
Proof.
  apply (truncated_ppf_shape uniform01).
  - exact uniform01_cdf_mono.
  - intros p p' Hp. exact Hp.
  - reflexivity.
  - reflexivity.
  - discriminate.
Defined.

Lemma truncated_rvs_in_interval_witness :
  exists t' xs g',
    TruncatedDistribution.__init__ uniform01 (1 # 4) (3 # 4) = Ok t' /\
    TruncatedDistribution.rvs t' (Some 3) half_stream = (xs, g') /\
    nd_Forall (fun x => (1 # 4 <= x <= 3 # 4)%Q) xs /\
    (exists l, xs = Array l /\ length l = 3) /\
    np.stream g' = np.stream half_stream /\
    np.pos g' = np.pos half_stream + 3.
Proof.
  apply (truncated_rvs_in_interval uniform01 (1 # 4) (3 # 4)
           uniform01_cdf_mono (fun p p' Hp => Hp) eq_refl eq_refl
           ltac:(discriminate) (Some 3) half_stream).
  intros j. split; discriminate.
Defined.

(** ** log_sample: only differences of log-weights matter *)

Lemma Qmax_shift (a b c : Q) : Qmax (a + c) (b + c) = (Qmax a b + c)%Q.
Proof.
  unfold Qmax, GenericMinMax.gmax.
  destruct (a ?= b)%Q eqn:E, (a + c ?= b + c)%Q eqn:E'; try reflexivity; exfalso;
    first [apply Qeq_alt in E | apply Qlt_alt in E | apply Qgt_alt in E];
    first [apply Qeq_alt in E' | apply Qlt_alt in E' | apply Qgt_alt in E'];
    lra.
Qed.

Lemma max_shift (w : list Q) (c : Q) (m : Q) :
  np.max w = Some m -> np.max (map (fun x => (x + c)%Q) w) = Some (m + c)%Q.
Proof.
  destruct w as [|a w]; simpl; [discriminate|]. intros [= <-]. f_equal.
  revert a. induction w as [|b w IH]; intros a; simpl; [reflexivity|].
  rewrite Qmax_shift. apply IH.
Qed.

(** Adding one constant to every log-weight changes nothing in what
    [log_sample] returns, for any [exp] that does not tell equal rationals
    apart: the maximum moves with the weights. *)
Theorem log_sample_shift_invariant (exp : Q -> Q) (lw : list Q) (c : Q)
    (g : np.RandomState) :
  (forall x y, (x == y)%Q -> (exp x == exp y)%Q) ->
  log_sample exp (map (fun x => (x + c)%Q) lw) g = log_sample exp lw g.
Proof.
  intros Hexp. unfold log_sample.
  destruct (np.max lw) as [m|] eqn:Hm.
  - rewrite (max_shift lw c m Hm). apply (sample_scale_any 1); [reflexivity|].
    clear Hm. induction lw as [|a lw IH]; simpl; constructor; [|exact IH].
    rewrite Qmult_1_l. apply Hexp. ring.
  - destruct lw; [reflexivity | discriminate].
Qed.

Lemma log_sample_shift_invariant_witness :
  log_sample exp2 (map (fun x => (x + 7)%Q) [0; 0; 1]%Q) half_stream
    = log_sample exp2 [0; 0; 1]%Q half_stream.
Proof.
  apply (log_sample_shift_invariant exp2 [0; 0; 1]%Q 7 half_stream).
  intros x y Hxy. unfold exp2. now rewrite (Qfloor_comp x y Hxy).
Defined.

(** ** _BruteForce: the table of probabilities *)

Section DictFacts.

Context {K : Type} `{EqDecision K}.

Lemma dict_get_set_eq (d : list (K * Q)) (k : K) (v : Q) :
  dict_get (dict_set d k v) k = Some v.
Proof.
  induction d as [|[k' v'] d IH]; simpl.
  - now rewrite decide_True.
  - destruct (decide (k' = k)) as [->|Hne]; simpl.
    + now rewrite decide_True.
    + now rewrite decide_False.
Qed.

Lemma dict_get_set_ne (d : list (K * Q)) (k k0 : K) (v : Q) :
  k <> k0 -> dict_get (dict_set d k v) k0 = dict_get d k0.
Proof.
  intros Hne. induction d as [|[k' v'] d IH]; simpl.
  - now rewrite decide_False.
  - destruct (decide (k' = k)) as [->|Hne']; simpl.
    + now rewrite !decide_False.
    + destruct (decide (k' = k0)); [reflexivity | exact IH].
Qed.

(** Setting a key that is not there appends it. *)
Lemma dict_set_fresh (d : list (K * Q)) (k : K) (v : Q) :
  ~ In k (map fst d) -> dict_set d k v = d ++ [(k, v)].
Proof.
  induction d as [|[k' v'] d IH]; simpl; intros Hin; [reflexivity|].
  rewrite decide_False by tauto. f_equal. apply IH. tauto.
Qed.

Lemma dict_fill_get (f : K -> Q) (l : list K) (acc : list (K * Q)) (x : K) :
  (In x l ->
   dict_get (fold_left (fun d k => dict_set d k (f k)) l acc) x = Some (f x)) /\
  (~ In x l ->
   dict_get (fold_left (fun d k => dict_set d k (f k)) l acc) x = dict_get acc x).
Proof.
  revert acc. induction l as [|a l IH]; intros acc; simpl.
  - split; [contradiction | reflexivity].
  - destruct (IH (dict_set acc a (f a))) as [IHin IHout].
    assert (Hdec : In x l \/ ~ In x l).
    { clear -EqDecision0. induction l as [|b l IHl]; simpl; [tauto|].
      destruct (decide (b = x)); tauto. }
    split.
    + intros Hin. destruct Hdec as [Hl|Hl]; [now apply IHin|].
      destruct Hin as [->|Hin]; [|contradiction].
      rewrite IHout by exact Hl. apply dict_get_set_eq.
    + intros Hnin. rewrite IHout by tauto. apply dict_get_set_ne. tauto.
Qed.

Lemma dict_fill_NoDup (f : K -> Q) (l : list K) (acc : list (K * Q)) :
  List.NoDup l -> (forall x, In x l -> ~ In x (map fst acc)) ->
  fold_left (fun d k => dict_set d k (f k)) l acc
    = acc ++ map (fun k => (k, f k)) l.
Proof.
  intros Hnd. revert acc. induction Hnd as [|a l Ha Hnd IH]; intros acc Hfresh; simpl.
  - now rewrite app_nil_r.
  - rewrite IH.
    + rewrite dict_set_fresh by (apply Hfresh; now left).
      now rewrite <- app_assoc.
    + intros x Hx. rewrite dict_set_fresh by (apply Hfresh; now left).
      rewrite map_app, in_app_iff. simpl. intros [Hin|[<-|[]]].
      * apply (Hfresh x); [now right | exact Hin].
      * apply Ha. exact Hx.
Qed.

End DictFacts.

(** [P] holds [score(x) / Z] for the elements of the domain and nothing
    else: [logp] of any other key is a [KeyError]. *)
Theorem bruteforce_table {K : Type} `{EqDecision K}
    (domain : list K) (score : K -> Q) (log : Q -> Q) (x : K) :
  (In x domain ->
   dict_get (BruteForce.P domain score) x
     = Some (score x / BruteForce.Z domain score)%Q /\
   BruteForce.logp domain score log x
     = Return (log (score x / BruteForce.Z domain score)%Q)) /\
  (~ In x domain ->
   dict_get (BruteForce.P domain score) x = None /\
   BruteForce.logp domain score log x = Throw KeyError).
Proof.
  unfold BruteForce.logp, BruteForce.P.
  destruct (dict_fill_get (fun k => (score k / BruteForce.Z domain score)%Q)
              domain [] x) as [Hin Hout].
  split; intros Hx.
  - now rewrite (Hin Hx).
  - now rewrite (Hout Hx).
Qed.

Lemma bruteforce_table_witness :
  (In 2 small_domain ->
   dict_get (BruteForce.P small_domain Qnat) 2
     = Some (Qnat 2 / BruteForce.Z small_domain Qnat)%Q /\
   BruteForce.logp small_domain Qnat (fun p => (p - 1)%Q) 2
     = Return ((fun p => (p - 1)%Q) (Qnat 2 / BruteForce.Z small_domain Qnat)%Q)) /\
  (~ In 2 small_domain ->
   dict_get (BruteForce.P small_domain Qnat) 2 = None /\
   BruteForce.logp small_domain Qnat (fun p => (p - 1)%Q) 2 = Throw KeyError).
Proof.
  exact (bruteforce_table small_domain Qnat (fun p => (p - 1)%Q) 2).
Defined.

Lemma total_mass_pos (l : list Q) :
  l <> [] -> Forall (fun v => (0 < v)%Q) l -> (0 < total_mass l)%Q.
Proof.
  intros Hne Hl. destruct Hl as [|a l Ha Hl]; [congruence|].
  assert (H0 : (0 <= total_mass l)%Q).
  { apply total_mass_nonneg. eapply List.Forall_impl; [|exact Hl].
    intros v Hv. simpl in Hv. lra. }
  simpl. lra.
Qed.

Lemma total_mass_nonpos (l : list Q) :
  Forall (fun v => (v <= 0)%Q) l -> (total_mass l <= 0)%Q.
Proof. induction 1 as [|a l Ha Hl IH]; simpl; lra. Qed.

Section BruteForceFacts.

Context {K : Type} `{EqDecision K}.
Variable domain : list K.
Variable score : K -> Q.
Hypothesis domain_NoDup : List.NoDup domain.
Hypothesis domain_nonempty : domain <> [].
Hypothesis score_pos : forall x, In x domain -> (0 < score x)%Q.

Local Abbreviation Z0 := (BruteForce.Z domain score).
Local Abbreviation P0 := (BruteForce.P domain score).

Lemma bruteforce_Z_pos : (0 < Z0)%Q.
Proof.
  unfold BruteForce.Z. rewrite array_sum_total_mass. apply total_mass_pos.
  - destruct domain; [congruence | discriminate].
  - rewrite List.Forall_map. apply List.Forall_forall. exact score_pos.
Qed.

Lemma bruteforce_P_eq : P0 = map (fun x => (x, (score x / Z0)%Q)) domain.
Proof.
  unfold BruteForce.P.
  rewrite (dict_fill_NoDup (fun k => (score k / Z0)%Q)); [reflexivity | |].
  - exact domain_NoDup.
  - intros x _ [].
Qed.

Lemma bruteforce_values_unit :
  Forall (fun p => (0 < p <= 1)%Q) (map snd P0).
Proof.
  pose proof bruteforce_Z_pos as HZ.
  rewrite bruteforce_P_eq, map_map. cbn [snd].
  rewrite List.Forall_map. apply List.Forall_forall. intros x Hx. split.
  - apply Qlt_shift_div_l; [exact HZ|]. specialize (score_pos x Hx). lra.
  - apply Qle_shift_div_r; [exact HZ|]. rewrite Qmult_1_l.
    unfold BruteForce.Z. rewrite array_sum_total_mass.
    apply entry_le_total_mass; [|now apply in_map].
    rewrite List.Forall_map. apply List.Forall_forall. intros y Hy.
    apply Qlt_le_weak. now apply score_pos.
Qed.

(** For a duplicate-free, non-empty domain with positive scores, [Z] is
    positive, [P] lists the domain in order with [score(x) / Z], every
    probability lies in (0, 1], and the probabilities add up to 1. *)
Theorem bruteforce_normalised :
  (0 < Z0)%Q /\
  P0 = map (fun x => (x, (score x / Z0)%Q)) domain /\
  Forall (fun p => (0 < p <= 1)%Q) (map snd P0) /\
  (total_mass (map snd P0) == 1)%Q.
Proof.
  pose proof bruteforce_Z_pos as HZ.
  split; [exact HZ|]. split; [exact bruteforce_P_eq|].
  split; [exact bruteforce_values_unit|].
  rewrite bruteforce_P_eq, map_map. cbn [snd].
  assert (Hmap : map (fun x => (score x / Z0)%Q) domain
                 = map (fun s => (s / Z0)%Q) (map score domain))
    by now rewrite map_map.
  rewrite Hmap, total_mass_div.
  unfold BruteForce.Z at 1. rewrite <- array_sum_total_mass.
  fold Z0. field. lra.
Qed.

(** With a logarithm that is at most 0 on (0, 1], the entropy of the
    table is non-negative. *)
Theorem bruteforce_entropy_nonneg (log : Q -> Q) :
  (forall p, (0 < p <= 1)%Q -> (log p <= 0)%Q) ->
  (0 <= BruteForce.entropy domain score log)%Q.
Proof.
  intros Hlog. unfold BruteForce.entropy. rewrite array_sum_total_mass.
  cut (total_mass
         (map (fun p => p * log p)
            (List.filter (fun p => negb (Qeq_bool p 0)) (map snd P0))) <= 0)%Q; [lra|].
  apply total_mass_nonpos. rewrite List.Forall_map.
  apply List.Forall_forall. intros p Hp. apply List.filter_In in Hp as [Hp _].
  pose proof bruteforce_values_unit as Hu. rewrite List.Forall_forall in Hu.
  specialize (Hu p Hp). specialize (Hlog p Hu). nra.
Qed.

End BruteForceFacts.

Lemma bruteforce_normalised_witness :
  (0 < BruteForce.Z small_domain Qnat)%Q /\
  BruteForce.P small_domain Qnat
    = map (fun x => (x, (Qnat x / BruteForce.Z small_domain Qnat)%Q)) small_domain /\
  Forall (fun p => (0 < p <= 1)%Q) (map snd (BruteForce.P small_domain Qnat)) /\
  (total_mass (map snd (BruteForce.P small_domain Qnat)) == 1)%Q.
Proof.
  apply (bruteforce_normalised small_domain Qnat).
  - unfold small_domain. repeat constructor; simpl; intros Hin;
      repeat destruct Hin as [Hin|Hin]; lia.
  - discriminate.
  - intros x [<-|[<-|[<-|[]]]]; reflexivity.
Defined.

Lemma bruteforce_entropy_nonneg_witness :
  (0 <= BruteForce.entropy small_domain Qnat (fun p => (p - 1)%Q))%Q.
Proof.
  apply (bruteforce_entropy_nonneg small_domain Qnat).
  - unfold small_domain. repeat constructor; simpl; intros Hin;
      repeat destruct Hin as [Hin|Hin]; lia.
  - discriminate.
  - intros x [<-|[<-|[<-|[]]]]; reflexivity.
  - intros p Hp. simpl. lra.
Defined.

(** ** Empirical: the invariant of the constructed object *)

(** After construction [self.x] holds the samples in ascending order, the
    same values as many times as in the input, and [self.n] is their
    number. *)
Theorem init_stores_sorted_samples (h : heap) (x0 : loc) (data : list Q) :
  h !! x0 = Some data ->
  exists h' e xs,
    Empirical.__init__ h x0 = Ok (h', e) /\
    h' !! Empirical.x e = Some xs /\
    StronglySorted Qle xs /\ Permutation data xs /\
    Empirical.n e = length xs.
Proof.
  intros Hx. destruct (init_ok h x0 data Hx) as (h' & e & Hi & _ & Hh & Hn).
  exists h', e, (np.sort data). split; [exact Hi|]. split.
  - rewrite Hh. apply lookup_insert_eq.
  - split; [apply sort_sorted|]. split; [apply sort_Permutation|].
    now rewrite sort_length.
Qed.

Lemma init_stores_sorted_samples_witness :
  exists h' e xs,
    Empirical.__init__ (heap_of [15; 5; 10; 5]%Q) 1%positive = Ok (h', e) /\
    h' !! Empirical.x e = Some xs /\
    StronglySorted Qle xs /\ Permutation [15; 5; 10; 5]%Q xs /\
    Empirical.n e = length xs.
Proof.
  apply (init_stores_sorted_samples (heap_of [15; 5; 10; 5]%Q) 1%positive).
  reflexivity.
Defined.
